(** * gomcbot: the login handshake of [login.go]

    A shallow embedding of [src/login.go] (package [gomcbot]) and the
    properties of its specification that can be stated over it.

    Conventions.
    - A Go [[]byte] is a [list byte]; a Go [string] is a [string] (both are
      byte sequences, [[]byte(s)] is [list_byte_of_string]).
    - Arithmetic on a byte goes through [Z] with the wrap-around written out.
    - A Go [error] is its message; [fmt.Errorf] is string concatenation.
    - A call that may return an error returns a [result]; a function that may
      also panic returns an [outcome]. *)

From Stdlib Require Import ZArith Lia List Ascii String.
From Stdlib.Strings Require Import Byte.
From stdpp Require Import base list gmap strings.
Import ListNotations.

Local Open Scope Z_scope.

(** ** Bytes *)

Module Bytes.

Definition to_Z (b : byte) : Z := Z.of_N (Byte.to_N b).

Definition of_Z (z : Z) : byte :=
  match Byte.of_N (Z.to_N (z mod 256)) with
  | Some b => b
  | None => x00
  end.

(** [^b] on a [uint8]. *)
Definition not (b : byte) : byte := of_Z (Z.lxor (to_Z b) 255).

(** [b++] on a [uint8]: wraps from [0xff] to [0x00]. *)
Definition inc (b : byte) : byte := of_Z (to_Z b + 1).

Definition xor (a b : byte) : byte := of_Z (Z.lxor (to_Z a) (to_Z b)).

(** The value of a byte sequence read as a big-endian natural number. *)
Definition be_value (p : list byte) : Z :=
  fold_left (fun acc b => acc * 256 + to_Z b) p 0.

Definition of_string (s : string) : list byte := list_byte_of_string s.
Definition to_string (p : list byte) : string := string_of_list_byte p.

End Bytes.

#[global] Instance byte_inhabited : Inhabited byte := populate x00.
#[global] Instance byte_eq_dec : EqDecision byte := Byte.byte_eq_dec.

(** ** Results of fallible calls *)

Definition error := string.

Inductive result (A : Type) : Type :=
| Ok (a : A)
| Err (e : error).
Arguments Ok {A} a.
Arguments Err {A} e.

(** A Go call either returns normally (with a value or with an error) or
    panics. *)
Inductive outcome (A : Type) : Type :=
| Returned (a : A)
| Failed (e : error)
| Panicked (msg : string).
Arguments Returned {A} a.
Arguments Failed {A} e.
Arguments Panicked {A} msg.

(** ** crypto/sha1 (FIPS 180-4), as used through [sha1.New], [Write], [Sum] *)

Module sha1.

Definition w32 (x : Z) : Z := x mod 2 ^ 32.

Definition rotl (n x : Z) : Z :=
  w32 (Z.lor (Z.shiftl x n) (Z.shiftr x (32 - n))).

Definition word_of_bytes (a b c d : byte) : Z :=
  Bytes.be_value [a; b; c; d].

Definition bytes_of_word (w : Z) : list byte :=
  [Bytes.of_Z (Z.shiftr w 24); Bytes.of_Z (Z.shiftr w 16);
   Bytes.of_Z (Z.shiftr w 8); Bytes.of_Z w].

Definition bytes_of_word64 (w : Z) : list byte :=
  bytes_of_word (Z.shiftr w 32) ++ bytes_of_word w.

(** Padding: [0x80], zeros up to 56 modulo 64, the bit length on 8 bytes. *)
Definition pad (msg : list byte) : list byte :=
  let len := Z.of_nat (length msg) in
  let zeros := Z.to_nat ((55 - len) mod 64) in
  msg ++ x80 :: repeat x00 zeros ++ bytes_of_word64 (len * 8).

Fixpoint words (p : list byte) : list Z :=
  match p with
  | a :: b :: c :: d :: rest => word_of_bytes a b c d :: words rest
  | _ => []
  end.

(** The message schedule, most recent word first. *)
Fixpoint extend (n : nat) (rw : list Z) : list Z :=
  match n with
  | O => rw
  | S n' =>
      let w := Z.lxor (Z.lxor (nth 2 rw 0) (nth 7 rw 0))
                      (Z.lxor (nth 13 rw 0) (nth 15 rw 0)) in
      extend n' (rotl 1 w :: rw)
  end.

Definition schedule (block : list Z) : list Z :=
  rev (extend 64 (rev block)).

Definition state : Type := Z * Z * Z * Z * Z.

Definition init : state :=
  (0x67452301, 0xEFCDAB89, 0x98BADCFE, 0x10325476, 0xC3D2E1F0).

Definition f (t : nat) (b c d : Z) : Z :=
  if (t <? 20)%nat then Z.lor (Z.land b c) (Z.land (Z.lxor b 0xFFFFFFFF) d)
  else if (t <? 40)%nat then Z.lxor (Z.lxor b c) d
  else if (t <? 60)%nat then
    Z.lor (Z.lor (Z.land b c) (Z.land b d)) (Z.land c d)
  else Z.lxor (Z.lxor b c) d.

Definition k (t : nat) : Z :=
  if (t <? 20)%nat then 0x5A827999
  else if (t <? 40)%nat then 0x6ED9EBA1
  else if (t <? 60)%nat then 0x8F1BBCDC
  else 0xCA62C1D6.

Fixpoint rounds (t : nat) (ws : list Z) (s : state) : state :=
  match ws with
  | [] => s
  | w :: ws' =>
      let '(a, b, c, d, e) := s in
      let temp := w32 (rotl 5 a + f t b c d + e + k t + w) in
      rounds (S t) ws' (temp, a, rotl 30 b, c, d)
  end.

Definition compress (s : state) (block : list Z) : state :=
  let '(a, b, c, d, e) := s in
  let '(a', b', c', d', e') := rounds 0 (schedule block) s in
  (w32 (a + a'), w32 (b + b'), w32 (c + c'), w32 (d + d'), w32 (e + e')).

Fixpoint blocks (n : nat) (ws : list Z) (s : state) : state :=
  match n with
  | O => s
  | S n' => blocks n' (drop 16 ws) (compress s (take 16 ws))
  end.

Definition bytes_of_state (s : state) : list byte :=
  let '(a, b, c, d, e) := s in
  bytes_of_word a ++ bytes_of_word b ++ bytes_of_word c ++
  bytes_of_word d ++ bytes_of_word e.

(** The hash object: the bytes written so far. *)
Definition digest : Type := list byte.

Definition New : digest := [].
Definition Write (h : digest) (p : list byte) : digest := h ++ p.

(** [h.Sum(nil)]. *)
Definition Sum (h : digest) : list byte :=
  let ws := words (pad h) in
  bytes_of_state (blocks (length ws / 16) ws init).

End sha1.

(** ** fmt and strings, as far as [authDigest] uses them *)

Module fmt.

Definition hexdigit (n : Z) : ascii :=
  nth (Z.to_nat n) (list_ascii_of_string "0123456789abcdef") "0"%char.

Definition hex_byte (b : byte) : string :=
  String (hexdigit (Bytes.to_Z b / 16))
    (String (hexdigit (Bytes.to_Z b mod 16)) EmptyString).

(** [fmt.Sprintf("%x", p)] for a byte slice [p]: two lowercase digits per
    byte. *)
Fixpoint Sprintf_x (p : list byte) : string :=
  match p with
  | [] => EmptyString
  | b :: rest => hex_byte b +:+ Sprintf_x rest
  end.

(** [fmt.Errorf(prefix + "%v", e)] and [fmt.Errorf(prefix + "%s", s)]: the
    error whose message is the prefix followed by the argument. *)
Definition Errorf (prefix : string) (arg : string) : error := prefix +:+ arg.

End fmt.

Module strings.

Fixpoint contains (cutset : string) (c : ascii) : bool :=
  match cutset with
  | EmptyString => false
  | String c' rest => if Ascii.eqb c c' then true else contains rest c
  end.

(** [strings.TrimLeft(s, cutset)] for an ASCII cutset. *)
Fixpoint TrimLeft (s cutset : string) : string :=
  match s with
  | EmptyString => EmptyString
  | String c rest => if contains cutset c then TrimLeft rest cutset else s
  end.

(** [strings.HasPrefix(s, prefix)]. *)
Fixpoint HasPrefix (s prefix : string) {struct prefix} : bool :=
  match prefix with
  | EmptyString => true
  | String c prefix' =>
      match s with
      | EmptyString => false
      | String d s' => Ascii.eqb c d && HasPrefix s' prefix'
      end
  end.

End strings.

(** ** [twosComplement] and [authDigest] (login.go, lines 63-96) *)

(** The loop of [twosComplement], [n] being [i + 1]: the slice is updated in
    place at index [i], from the last index down to 0. *)
Fixpoint twosComplement_loop (n : nat) (p : list byte) (carry : bool)
  : list byte :=
  match n with
  | O => p
  | S i =>
      let p1 := <[i := Bytes.not (p !!! i)]> p in
      if carry then
        let carry' := Byte.eqb (p1 !!! i) xff in
        let p2 := <[i := Bytes.inc (p1 !!! i)]> p1 in
        twosComplement_loop i p2 carry'
      else twosComplement_loop i p1 carry
  end.

Definition twosComplement (p : list byte) : list byte :=
  twosComplement_loop (length p) p true.

(** The part of [authDigest] after [h.Sum(nil)] (lines 70-82). *)
Definition signedHex (hash : list byte) : string :=
  let negative := Z.land (Bytes.to_Z (hash !!! 0%nat)) 0x80 =? 0x80 in
  let hash := if negative then twosComplement hash else hash in
  let res := strings.TrimLeft (fmt.Sprintf_x hash) "0" in
  if negative then "-" +:+ res else res.

Definition authDigest (serverID : string) (sharedSecret publicKey : list byte)
  : string :=
  let h := sha1.New in
  let h := sha1.Write h (Bytes.of_string serverID) in
  let h := sha1.Write h sharedSecret in
  let h := sha1.Write h publicKey in
  signedHex (sha1.Sum h).

(** ** unicode/utf8 *)

Module utf8.

Definition between (lo hi : Z) (b : byte) : bool :=
  (lo <=? Bytes.to_Z b) && (Bytes.to_Z b <=? hi).

Definition cont : byte -> bool := between 0x80 0xBF.

(** [utf8.Valid]: well-formed UTF-8 byte sequences (RFC 3629): no overlong
    forms, no surrogates, nothing above U+10FFFF. *)
Fixpoint Valid (p : list byte) : bool :=
  match p with
  | [] => true
  | b0 :: r0 =>
      if between 0x00 0x7F b0 then Valid r0
      else
        match r0 with
        | [] => false
        | b1 :: r1 =>
            if between 0xC2 0xDF b0 then cont b1 && Valid r1
            else
              match r1 with
              | [] => false
              | b2 :: r2 =>
                  if between 0xE0 0xEF b0 then
                    (if between 0xE0 0xE0 b0 then between 0xA0 0xBF b1
                     else if between 0xED 0xED b0 then between 0x80 0x9F b1
                     else cont b1)
                    && cont b2 && Valid r2
                  else
                    match r2 with
                    | [] => false
                    | b3 :: r3 =>
                        if between 0xF0 0xF4 b0 then
                          (if between 0xF0 0xF0 b0 then between 0x90 0xBF b1
                           else if between 0xF4 0xF4 b0
                                then between 0x80 0x8F b1
                                else cont b1)
                          && cont b2 && cont b3 && Valid r3
                        else false
                    end
              end
        end
  end.

End utf8.

(** ** Go integer conversions *)

Definition int32 (z : Z) : Z := (z + 2 ^ 31) mod 2 ^ 32 - 2 ^ 31.
Definition uint32 (z : Z) : Z := z mod 2 ^ 32.
Definition uint16 (z : Z) : Z := z mod 2 ^ 16.

(** [len(p)] as a Go [int]. *)
Definition len {A} (p : list A) : Z := Z.of_nat (length p).

(** ** The packet codec, package [packet] (imported as [pk])

    [login.go] only consumes this package. *)

Module pk.

(** [pk.Packet] as [login.go] uses it: an opcode and a payload. *)
Record Packet : Type := { ID : byte; Data : list byte }.

(** Modelled from the spec: the [MalformedPacket] condition, "incoming
    encryption-request bytes violate the expected framing"; the decoders of
    the package are not part of the sources. *)
Definition MalformedPacket : error := "MalformedPacket".

(** A [bytes.Reader] over the payload: its state is the unread suffix. A
    decoder takes the reader and gives a value and the reader advanced, or
    an error. *)
Definition Reader : Type := list byte.
Definition Decoder (A : Type) : Type := Reader -> result (A * Reader).

Definition ret {A} (a : A) : Decoder A := fun r => Ok (a, r).
Definition fail {A} (e : error) : Decoder A := fun _ => Err e.
Definition bind {A B} (m : Decoder A) (k : A -> Decoder B) : Decoder B :=
  fun r => match m r with
           | Ok (a, r') => k a r'
           | Err e => Err e
           end.

(** Modelled from the spec: [pk.PackVarInt], the protocol's variable-length
    integer of the "Packet Codec (external)": the 32-bit value taken
    unsigned, seven bits per byte from the least significant group, the
    high bit of a byte set when another byte follows (at most five
    bytes). *)
Fixpoint PackVarInt_loop (fuel : nat) (num : Z) : list byte :=
  match fuel with
  | O => []
  | S fuel' =>
      let b := Z.land num 0x7F in
      let num' := Z.shiftr num 7 in
      if num' =? 0 then [Bytes.of_Z b]
      else Bytes.of_Z (Z.lor b 0x80) :: PackVarInt_loop fuel' num'
  end.

(** Modelled from the spec: [pk.PackVarInt(n)], the variable-length integer
    of the 32-bit value [n]. *)
Definition PackVarInt (n : Z) : list byte := PackVarInt_loop 5 (uint32 n).

(** Modelled from the spec: [pk.UnpackVarInt], the decoder of the same
    variable-length integer; the payload ending inside the integer and a
    fifth byte that announces a sixth are framing violations. *)
Fixpoint UnpackVarInt_loop (fuel : nat) (i : Z) (n : Z) : Decoder Z :=
  fun r =>
    match fuel with
    | O => Err MalformedPacket
    | S fuel' =>
        match r with
        | [] => Err MalformedPacket
        | sec :: r' =>
            let n' :=
              Z.lor n (Z.shiftl (Z.land (Bytes.to_Z sec) 0x7F) (7 * i)) in
            if Z.land (Bytes.to_Z sec) 0x80 =? 0 then Ok (int32 n', r')
            else UnpackVarInt_loop fuel' (i + 1) n' r'
        end
    end.

(** Modelled from the spec: [pk.UnpackVarInt(r)], a 32-bit value read from
    at most five bytes. *)
Definition UnpackVarInt : Decoder Z := UnpackVarInt_loop 5 0 0.

(** Modelled from the spec: [pk.ReadNBytes], "fails with a MalformedPacket
    condition if any field's declared length exceeds the remaining
    buffer"; a negative declared length is a framing violation as well. *)
Definition ReadNBytes (n : Z) : Decoder (list byte) :=
  fun r =>
    if (n <? 0) || (len r <? n) then Err MalformedPacket
    else Ok (take (Z.to_nat n) r, drop (Z.to_nat n) r).

(** Modelled from the spec: [pk.UnpackString], a "length-prefixed UTF-8
    string": the byte count as a variable-length integer, then the bytes,
    which fail the decoding "if the string is not valid UTF-8". *)
Definition UnpackString : Decoder string :=
  bind UnpackVarInt (fun l =>
  bind (ReadNBytes l) (fun bs =>
  if utf8.Valid bs then ret (Bytes.to_string bs) else fail MalformedPacket)).

(** Modelled from the spec: [pk.PackString], the "length-prefixed string" of
    the codec: the byte count as a variable-length integer, then the
    bytes. *)
Definition PackString (s : string) : list byte :=
  let byteString := Bytes.of_string s in
  PackVarInt (int32 (len byteString)) ++ byteString.

(** Modelled from the spec: [pk.PackUint16], "unsigned 16-bit
    big-endian". *)
Definition PackUint16 (n : Z) : list byte :=
  [Bytes.of_Z (Z.shiftr n 8); Bytes.of_Z n].

End pk.

Module bytes.
(** [bytes.NewReader(b)]: nothing read yet. *)
Definition NewReader (b : list byte) : pk.Reader := b.
End bytes.

Declare Scope decoder_scope.
Delimit Scope decoder_scope with decoder.
Notation "'let*' x := m 'in' k" := (pk.bind m (fun x => k))
  (at level 10, x name, m at level 100, k at level 200) : decoder_scope.

(** ** [unpackEncryptionRequest] (login.go, lines 20-55) *)

Record encryptionRequest : Type := {
  ServerID : string;
  PublicKey : list byte;
  VerifyToken : list byte;
}.

Definition unpackEncryptionRequest_body : pk.Decoder encryptionRequest :=
  (let* serverID := pk.UnpackString in
   let* publicKeyLength := pk.UnpackVarInt in
   let* publicKey := pk.ReadNBytes publicKeyLength in
   let* verifyTokenLength := pk.UnpackVarInt in
   let* verifyToken := pk.ReadNBytes verifyTokenLength in
   pk.ret {| ServerID := serverID;
             PublicKey := publicKey;
             VerifyToken := verifyToken |})%decoder.

Definition unpackEncryptionRequest (p : pk.Packet) : result encryptionRequest :=
  let r := bytes.NewReader (pk.Data p) in
  match unpackEncryptionRequest_body r with
  | Ok (er, _) => Ok er
  | Err e => Err e
  end.

(** ** The standard library behind [loginAuth] *)

Module ioutil.

(** A response body as [ioutil.ReadAll] sees it: the bytes it delivers and
    the read error it may end with. *)
Record ReadCloser : Type := { content : list byte; readErr : option error }.

Definition ReadAll (rc : ReadCloser) : list byte * option error :=
  (content rc, readErr rc).

End ioutil.

Module http.

Record Request : Type := {
  Method : string;
  URL : string;
  Header : gmap string (list string);
  Body : list byte;
}.

Record Response : Type := {
  Status : string;
  StatusCode : Z;
  RespBody : ioutil.ReadCloser;
}.

Definition MethodPost : string := "POST".

Definition isLetter (c : ascii) : bool :=
  let n := nat_of_ascii c in
  ((65 <=? n) && (n <=? 90) || (97 <=? n) && (n <=? 122))%nat.

Definition isDigit (c : ascii) : bool :=
  let n := nat_of_ascii c in ((48 <=? n) && (n <=? 57))%nat.

(** The [token] characters of RFC 7230. *)
Definition isTokenChar (c : ascii) : bool :=
  isLetter c || isDigit c || strings.contains "!#$%&'*+-.^_`|~" c.

Fixpoint allChars (f : ascii -> bool) (s : string) : bool :=
  match s with
  | EmptyString => true
  | String c rest => f c && allChars f rest
  end.

Definition validMethod (method : string) : bool :=
  negb (String.eqb method EmptyString) && allChars isTokenChar method.

(** [http.NewRequest(method, url, body)]: a request without headers. An
    invalid method is refused; the URL is taken as it is (parsing it is not
    modelled: [login.go] passes a constant that parses). *)
Definition NewRequest (method url : string) (body : list byte)
  : result Request :=
  let method := if String.eqb method EmptyString then "GET" else method in
  if validMethod method then
    Ok {| Method := method; URL := url; Header := ∅; Body := body |}
  else Err ("net/http: invalid method " +:+ method).

Definition toUpper (c : ascii) : ascii :=
  let n := nat_of_ascii c in
  if ((97 <=? n) && (n <=? 122))%nat then ascii_of_nat (n - 32) else c.

Definition toLower (c : ascii) : ascii :=
  let n := nat_of_ascii c in
  if ((65 <=? n) && (n <=? 90))%nat then ascii_of_nat (n + 32) else c.

Fixpoint canonical (upper : bool) (s : string) : string :=
  match s with
  | EmptyString => EmptyString
  | String c rest =>
      String (if upper then toUpper c else toLower c)
             (canonical (Ascii.eqb c "-") rest)
  end.

(** [textproto.CanonicalMIMEHeaderKey]: a key that is not a token is left
    as it is. *)
Definition CanonicalMIMEHeaderKey (s : string) : string :=
  if allChars isTokenChar s then canonical true s else s.

(** [req.Header.Set(key, value)]. *)
Definition Header_Set (req : Request) (key value : string) : Request :=
  {| Method := Method req;
     URL := URL req;
     Header := <[CanonicalMIMEHeaderKey key := [value]]> (Header req);
     Body := Body req |}.

End http.

Module json.

(** The shape of a marshalled value: [login.go] marshals structs of
    strings. *)
#[local] Unset Elimination Schemes.
Inductive value : Type :=
| Str (s : string)
| Object (fields : list (string * value)).
#[local] Set Elimination Schemes.

Definition dquote : string := String "034"%char EmptyString.

Fixpoint join (sep : string) (l : list string) : string :=
  match l with
  | [] => EmptyString
  | [x] => x
  | x :: rest => x +:+ sep +:+ join sep rest
  end.

(** The text of a value. [quote] is the encoding of a string value (with
    its quotes and escapes); field names are written between quotes. *)
Fixpoint encode (quote : string -> string) (v : value) : string :=
  match v with
  | Str s => quote s
  | Object fields =>
      "{" +:+
      join "," (map (fun kv => dquote +:+ fst kv +:+ dquote +:+ ":" +:+
                               encode quote (snd kv)) fields)
      +:+ "}"
  end.

End json.

(** ** [loginAuth] (login.go, lines 98-145) *)

Module profile.
Record t : Type := { ID : string; Name : string }.

(** The struct tags [json:"id"] and [json:"name"]. *)
Definition toJSON (p : t) : json.value :=
  json.Object [("id", json.Str (ID p)); ("name", json.Str (Name p))].
End profile.

Module request.
Record t : Type := {
  AccessToken : string;
  SelectedProfile : profile.t;
  ServerID : string;
}.

(** The struct tags [json:"accessToken"], [json:"selectedProfile"] and
    [json:"serverId"]. *)
Definition toJSON (r : t) : json.value :=
  json.Object [("accessToken", json.Str (AccessToken r));
               ("selectedProfile", profile.toJSON (SelectedProfile r));
               ("serverId", json.Str (ServerID r))].
End request.

Module rsa.
Record PublicKey : Type := { N : Z; E : Z }.
End rsa.

Module x509.
(** The dynamic types [x509.ParsePKIXPublicKey] hands back in its
    [interface{}]. *)
Inductive key : Type :=
| RSA (k : rsa.PublicKey)
| DSA (y : Z)
| ECDSA (x y : Z)
| Ed25519 (k : list byte).
End x509.

(** What the program reaches outside itself: the secure random source, the
    X.509 decoder, RSA and AES of the Go standard library, the JSON string
    encoder and the HTTP transport to the identity service. *)
Record Platform : Type := {
  (** the state of [crypto/rand.Reader] *)
  Rand : Type;
  (** reading [n] bytes: the bytes obtained, the error if any, the source
      afterwards *)
  rand_Read : Rand -> nat -> list byte * option error * Rand;
  x509_ParsePKIXPublicKey : list byte -> result x509.key;
  rsa_EncryptPKCS1v15 :
    Rand -> rsa.PublicKey -> list byte -> result (list byte) * Rand;
  (** [Encrypt] of the AES block keyed by the first argument *)
  aes_Encrypt : list byte -> list byte -> list byte;
  json_quote : string -> string;
  (** [http.Client.Do]: a response, or the transport's error *)
  http_Do : http.Request -> result http.Response;
}.

Module jsonlib.
(** [json.Marshal] of a [request]; it has no failing case for a struct of
    strings. *)
Definition Marshal (P : Platform) (r : request.t) : result (list byte) :=
  Ok (Bytes.of_string (json.encode (json_quote P) (request.toJSON r))).
End jsonlib.

Definition joinURL : string :=
  "https://sessionserver.mojang.com/session/minecraft/join".

(** The result is the error returned ([None] for [nil]) together with the
    requests handed to [client.Do]. *)
Definition loginAuth (P : Platform) (AsTk name UUID : string)
    (shareSecret : list byte) (er : encryptionRequest)
  : list http.Request * option error :=
  let digest := authDigest (ServerID er) shareSecret (PublicKey er) in
  match jsonlib.Marshal P
          {| request.AccessToken := AsTk;
             request.SelectedProfile :=
               {| profile.ID := UUID; profile.Name := name |};
             request.ServerID := digest |} with
  | Err err =>
      ([], Some (fmt.Errorf "create request packet to authenticate faile: " err))
  | Ok requestPacket =>
      match http.NewRequest http.MethodPost joinURL requestPacket with
      | Err err => ([], Some (fmt.Errorf "make request error: " err))
      | Ok PostRequest =>
          let PostRequest := http.Header_Set PostRequest "User-Agent" "gomcbot" in
          let PostRequest :=
            http.Header_Set PostRequest "Connection" "keep-alive" in
          match http_Do P PostRequest with
          | Err err => ([PostRequest], Some (fmt.Errorf "post fail: " err))
          | Ok resp =>
              let '(body, _) := ioutil.ReadAll (http.RespBody resp) in
              if negb (String.eqb (http.Status resp) "204 No Content") then
                ([PostRequest],
                 Some (fmt.Errorf "auth fail: " (Bytes.to_string body)))
              else ([PostRequest], None)
          end
      end
  end.

(** ** [newSymmetricEncryption] (login.go, lines 147-159) *)

Module aes.

(** A [cipher.Block]: its block size and its [Encrypt]. *)
Record Block : Type := { BlockSize : nat; Encrypt : list byte -> list byte }.

(** [aes.NewCipher(key)]: keys of 16, 24 or 32 bytes only. *)
Definition NewCipher (P : Platform) (key : list byte) : result Block :=
  if bool_decide (length key ∈ [16; 24; 32]%nat) then
    Ok {| BlockSize := 16; Encrypt := aes_Encrypt P key |}
  else Err "crypto/aes: invalid key size".

End aes.

Module CFB8.

(** Modelled from the spec: package [CFB8] is not part of the sources. A
    stream is the block cipher "wrapped in 8-bit cipher-feedback mode",
    "configured for encryption" or "for decryption", with its own "internal
    feedback register" that starts as the initialization vector; "each byte
    encrypted/decrypted advances that stream's internal feedback
    register". *)
Record stream : Type := {
  block : aes.Block;
  register : list byte;
  decrypt : bool;
}.

(** Modelled from the spec: [CFB8.NewCFB8Encrypt(b, iv)], the stream
    "configured for encryption" with [iv] as its initial register. *)
Definition NewCFB8Encrypt (b : aes.Block) (iv : list byte) : stream :=
  {| block := b; register := iv; decrypt := false |}.

(** Modelled from the spec: [CFB8.NewCFB8Decrypt(b, iv)], the stream
    configured "for decryption" with [iv] as its initial register. *)
Definition NewCFB8Decrypt (b : aes.Block) (iv : list byte) : stream :=
  {| block := b; register := iv; decrypt := true |}.

(** Modelled from the spec: one byte in "8-bit cipher-feedback mode". The
    byte is combined with the first byte of the encrypted register, and the
    ciphertext byte is shifted into the register ("each byte
    encrypted/decrypted advances that stream's internal feedback
    register"). *)
Definition step (s : stream) (x : byte) : byte * stream :=
  let o := aes.Encrypt (block s) (register s) !!! 0%nat in
  let y := Bytes.xor x o in
  let c := if decrypt s then x else y in
  (y, {| block := block s;
         register := drop 1 (register s) ++ [c];
         decrypt := decrypt s |}).

(** Modelled from the spec: [XORKeyStream(dst, src)] of the stream, byte
    after byte: the bytes written to [dst] and the stream afterwards. *)
Fixpoint XORKeyStream (s : stream) (src : list byte) : list byte * stream :=
  match src with
  | [] => ([], s)
  | x :: rest =>
      let (y, s') := step s x in
      let (ys, s'') := XORKeyStream s' rest in
      (y :: ys, s'')
  end.

End CFB8.

(** [copy(dst, src)] as a reader does it into a buffer: a prefix of [dst] is
    overwritten, its length is unchanged. *)
Definition overwrite (dst src : list byte) : list byte :=
  take (length dst) (src ++ drop (length src) dst).

Definition newSymmetricEncryption (P : Platform) (rnd : Rand P)
  : outcome (list byte * CFB8.stream * CFB8.stream) * Rand P :=
  let key := repeat x00 16 in
  let '(got, _, rnd) := rand_Read P rnd (length key) in
  let key := overwrite key got in
  match aes.NewCipher P key with
  | Err err => (Panicked err, rnd)
  | Ok b =>
      let decoStream := CFB8.NewCFB8Decrypt b key in
      let encoStream := CFB8.NewCFB8Encrypt b key in
      (Returned (key, encoStream, decoStream), rnd)
  end.

(** ** [genEncryptionKeyResponse] (login.go, lines 161-189) *)

Definition genEncryptionKeyResponse (P : Platform) (rnd : Rand P)
    (shareSecret publicKey verifyToken : list byte)
  : outcome pk.Packet * Rand P :=
  match x509_ParsePKIXPublicKey P publicKey with
  | Err err => (Failed (fmt.Errorf "decode public key fail: " err), rnd)
  | Ok iPK =>
      match iPK with
      | x509.RSA rsaKey =>
          match rsa_EncryptPKCS1v15 P rnd rsaKey shareSecret with
          | (Err err, rnd) =>
              (Failed (fmt.Errorf "encryption share secret fail: " err), rnd)
          | (Ok cryptPK, rnd) =>
              match rsa_EncryptPKCS1v15 P rnd rsaKey verifyToken with
              | (Err err, rnd) =>
                  (Failed (fmt.Errorf "encryption verfy tokenfail: " err), rnd)
              | (Ok verifyT, rnd) =>
                  let data := [] in
                  let data := data ++ pk.PackVarInt (int32 (len cryptPK)) in
                  let data := data ++ cryptPK in
                  let data := data ++ pk.PackVarInt (int32 (len verifyT)) in
                  let data := data ++ verifyT in
                  (Returned {| pk.ID := x01; pk.Data := data |}, rnd)
              end
          end
      | _ =>
          (Panicked "interface conversion: interface {} is not *rsa.PublicKey",
           rnd)
      end
  end.

(** ** [newHandshakePacket] and [newLoginStartPacket]
    (login.go, lines 191-214) *)

Definition newHandshakePacket (protocolVersion : Z) (addr : string)
    (port : Z) (nextState : byte) : pk.Packet :=
  let hsData := [] in
  let hsData := hsData ++ pk.PackVarInt (int32 protocolVersion) in
  let hsData := hsData ++ pk.PackString addr in
  let hsData := hsData ++ pk.PackUint16 (uint16 port) in
  let hsData := hsData ++ [nextState] in
  {| pk.ID := x00; pk.Data := hsData |}.

Definition newLoginStartPacket (userName : string) : pk.Packet :=
  let data := [] in
  let data := data ++ pk.PackString userName in
  {| pk.ID := x00; pk.Data := data |}.

(** ** A test fixture: one concrete platform

    An entropy pool that can run dry, a decoder for the two
    SubjectPublicKeyInfo shapes of the examples, RSA encryption with PKCS#1
    v1.5 padding by modular exponentiation, a stand-in block function, and a
    stub identity service. It is used for the examples only: the theorems
    hold for every platform. *)

Module Fixture.

Definition hexval (c : ascii) : Z :=
  let n := Z.of_nat (nat_of_ascii c) in
  if (48 <=? n) && (n <=? 57) then n - 48
  else if (97 <=? n) && (n <=? 102) then n - 87
  else 0.

Fixpoint unhex (s : string) : list byte :=
  match s with
  | String a (String b rest) =>
      Bytes.of_Z (hexval a * 16 + hexval b) :: unhex rest
  | _ => []
  end.

(** The entropy pool: reading more than it holds gives what is left and an
    error. *)
Definition Read (pool : list byte) (n : nat)
  : list byte * option error * list byte :=
  if (n <=? length pool)%nat then (take n pool, None, drop n pool)
  else (pool, Some "unexpected EOF"%string, []).

(** One DER element: its tag, its content and what follows it. *)
Definition der_tlv (p : list byte) : option (byte * list byte * list byte) :=
  match p with
  | t :: l :: r =>
      let l := Bytes.to_Z l in
      if l <? 128 then
        if len r <? l then None
        else Some (t, take (Z.to_nat l) r, drop (Z.to_nat l) r)
      else
        let n := Z.to_nat (l - 128) in
        let L := Bytes.be_value (take n r) in
        let r' := drop n r in
        if (n =? 0)%nat || (len r <? Z.of_nat n) || (len r' <? L) then None
        else Some (t, take (Z.to_nat L) r', drop (Z.to_nat L) r')
  | _ => None
  end.

Definition expect (tag : byte) (p : list byte)
  : option (list byte * list byte) :=
  match der_tlv p with
  | Some (t, c, r) => if Byte.eqb t tag then Some (c, r) else None
  | None => None
  end.

Definition oid_rsaEncryption : list byte := unhex "2a864886f70d010101".
Definition oid_ecPublicKey : list byte := unhex "2a8648ce3d0201".

Definition parseRSA (keyBytes : list byte) : option x509.key :=
  '(seq, _) ← expect x30 keyBytes;
  '(n, r) ← expect x02 seq;
  '(e, _) ← expect x02 r;
  Some (x509.RSA {| rsa.N := Bytes.be_value n; rsa.E := Bytes.be_value e |}).

Definition parseEC (keyBytes : list byte) : option x509.key :=
  match keyBytes with
  | x04 :: xy =>
      if (length xy =? 64)%nat then
        Some (x509.ECDSA (Bytes.be_value (take 32 xy))
                         (Bytes.be_value (drop 32 xy)))
      else None
  | _ => None
  end.

Definition parseSPKI (der : list byte) : option x509.key :=
  '(spki, _) ← expect x30 der;
  '(alg, r) ← expect x30 spki;
  '(oid, _) ← expect x06 alg;
  '(bits, _) ← expect x03 r;
  match bits with
  | x00 :: keyBytes =>
      if bool_decide (oid = oid_rsaEncryption) then parseRSA keyBytes
      else if bool_decide (oid = oid_ecPublicKey) then parseEC keyBytes
      else None
  | _ => None
  end.

Definition ParsePKIXPublicKey (der : list byte) : result x509.key :=
  match parseSPKI der with
  | Some k => Ok k
  | None => Err "asn1: structure error"
  end.

Fixpoint modpow_pos (b : Z) (e : positive) (m : Z) : Z :=
  match e with
  | xH => b mod m
  | xO e' => let h := modpow_pos b e' m in (h * h) mod m
  | xI e' => let h := modpow_pos b e' m in (h * h mod m) * b mod m
  end.

Definition modpow (b e m : Z) : Z :=
  match e with
  | Zpos p => modpow_pos b p m
  | _ => 1 mod m
  end.

(** The big-endian bytes of [v] on [k] bytes. *)
Fixpoint be_bytes (k : nat) (v : Z) : list byte :=
  match k with
  | O => []
  | S k' => be_bytes k' (Z.shiftr v 8) ++ [Bytes.of_Z v]
  end.

Definition nonzero (b : byte) : bool := negb (Byte.eqb b x00).

(** [rsa.EncryptPKCS1v15]: [0x00 0x02 PS 0x00 M] raised to [E] modulo [N],
    [PS] being non-zero bytes of the random source. *)
Definition EncryptPKCS1v15 (pool : list byte) (pub : rsa.PublicKey)
    (msg : list byte) : result (list byte) * list byte :=
  let k := Z.to_nat ((Z.log2 (rsa.N pub) + 8) / 8) in
  if (k <? length msg + 11)%nat then
    (Err "crypto/rsa: message too long for RSA public key size", pool)
  else
    let psLen := (k - length msg - 3)%nat in
    let usable := filter (fun b => nonzero b = true) pool in
    if (length usable <? psLen)%nat then (Err "unexpected EOF", [])
    else
      let em := x00 :: x02 :: take psLen usable ++ x00 :: msg in
      (Ok (be_bytes k (modpow (Bytes.be_value em) (rsa.E pub) (rsa.N pub))),
       drop psLen usable).

(** A stand-in for the AES block function: the block combined with the key
    and rotated by one byte. *)
Definition blockFunction (key src : list byte) : list byte :=
  let mixed := zip_with Bytes.xor key src in
  drop 1 mixed ++ take 1 mixed.

Definition quote (s : string) : string := json.dquote +:+ s +:+ json.dquote.

Definition platform (service : http.Request -> result http.Response)
  : Platform :=
  {| Rand := list byte;
     rand_Read := Read;
     x509_ParsePKIXPublicKey := ParsePKIXPublicKey;
     rsa_EncryptPKCS1v15 := EncryptPKCS1v15;
     aes_Encrypt := blockFunction;
     json_quote := quote;
     http_Do := service |}.

Definition rsaKeyDER : list byte :=
  unhex "30819f300d06092a864886f70d010101050003818d0030818902818100caa92184ac3c221b4f87e567385ec73787b392622f88dc8a53e09d173836db465115481954239eca2b779a7166f0749a5459db8a295b4f6775f78a6a211cde914fcce23f73d8818f7d90e61c97e696cbae92a4c7a23f9b537e916aece88cfb4ed79bbf549746c66a4736f0440e048ff09cf3d368363420f8405153b32d415e750203010001".

Definition rsaModulus : Z :=
  0xcaa92184ac3c221b4f87e567385ec73787b392622f88dc8a53e09d173836db465115481954239eca2b779a7166f0749a5459db8a295b4f6775f78a6a211cde914fcce23f73d8818f7d90e61c97e696cbae92a4c7a23f9b537e916aece88cfb4ed79bbf549746c66a4736f0440e048ff09cf3d368363420f8405153b32d415e75.

Definition ecKeyDER : list byte :=
  unhex "3059301306072a8648ce3d020106082a8648ce3d030107034200046b17d1f2e12c4247f8bce6e563a440f277037d812deb33a0f4a13945d898c2964fe342e2fe1a7f9b8ee7eb4a7c0f9e162bce33576b315ececbb6406837bf51f5".

Definition respond (status : string) (code : Z) (body : string)
  : http.Request -> result http.Response :=
  fun _ => Ok {| http.Status := status;
                 http.StatusCode := code;
                 http.RespBody := {| ioutil.content := Bytes.of_string body;
                                     ioutil.readErr := None |} |}.

Definition unreachable : http.Request -> result http.Response :=
  fun _ => Err "dial tcp: connection refused".

Definition pool (n : nat) : list byte :=
  map (fun i => Bytes.of_Z (Z.of_nat i * 37 + 11)) (seq 0 n).

(** The response to a shared secret of sixteen zero bytes and a verify token
    of four bytes under [rsaKeyDER], with an entropy pool of 400 bytes. *)
Definition responsePacket : pk.Packet :=
  Eval vm_compute in
    match fst (genEncryptionKeyResponse (platform unreachable) (pool 400)
                 (repeat x00 16) rsaKeyDER [x01; x02; x03; x04]) with
    | Returned erp => erp
    | _ => {| pk.ID := x00; pk.Data := [] |}
    end.

Definition poolAfterResponse : list byte :=
  Eval vm_compute in
    snd (genEncryptionKeyResponse (platform unreachable) (pool 400)
           (repeat x00 16) rsaKeyDER [x01; x02; x03; x04]).

End Fixture.

(** ** The specification's side

    Definitions that follow the words of the specification, to be compared
    with the definitions above. *)

Module Spec.

(** "byte-wise inversion" *)
Definition invert (p : list byte) : list byte := map Bytes.not p.

(** "plus one", on the big-endian byte sequence, the "carry propagating from
    the least-significant byte" (the last one); the boolean is the carry out
    of the first byte. *)
Fixpoint plusOne (p : list byte) : list byte * bool :=
  match p with
  | [] => ([], true)
  | b :: rest =>
      let (rest', carry) := plusOne rest in
      if carry then (Bytes.inc b :: rest', Byte.eqb b xff)
      else (b :: rest', false)
  end.

Definition negate (p : list byte) : list byte := fst (plusOne (invert p)).

(** "the high bit of the first digest byte" *)
Definition highBit (p : list byte) : bool :=
  match p with
  | b :: _ => Z.testbit (Bytes.to_Z b) 7
  | [] => false
  end.

Definition nibbles (p : list byte) : list Z :=
  flat_map (fun b => [Bytes.to_Z b / 16; Bytes.to_Z b mod 16]) p.

(** "leading zero nibbles stripped" *)
Fixpoint stripZeros (l : list Z) : list Z :=
  match l with
  | 0 :: rest => stripZeros rest
  | _ => l
  end.

(** "lowercase hexadecimal" *)
Definition lowerHex (l : list Z) : string :=
  string_of_list_ascii (map fmt.hexdigit l).

Definition render (p : list byte) : string := lowerHex (stripZeros (nibbles p)).

(** The "nonstandard signed-hex string" of a digest. *)
Definition signedHex (d : list byte) : string :=
  if highBit d then "-" +:+ render (negate d) else render d.

(** The digest read as "a signed big-endian two's-complement integer". *)
Definition signedValue (d : list byte) : Z :=
  let v := Bytes.be_value d in
  if 2 ^ (8 * len d - 1) <=? v then v - 2 ^ (8 * len d) else v.

Definition digitValue (c : ascii) : option Z :=
  let n := Z.of_nat (nat_of_ascii c) in
  if (48 <=? n) && (n <=? 57) then Some (n - 48)
  else if (97 <=? n) && (n <=? 102) then Some (n - 87)
  else None.

Fixpoint hexValue_from (acc : Z) (s : string) : option Z :=
  match s with
  | EmptyString => Some acc
  | String c rest =>
      match digitValue c with
      | Some d => hexValue_from (acc * 16 + d) rest
      | None => None
      end
  end.

(** The number a string of lowercase hexadecimal digits denotes. *)
Definition hexValue (s : string) : option Z := hexValue_from 0 s.

Definition noLeadingZero (s : string) : Prop :=
  match s with
  | String c _ => c <> "0"%char
  | EmptyString => True
  end.

(** [l] is a complete variable-length integer of value [n]: a decoder that
    meets it reads exactly its bytes. *)
Definition isVarInt (l : list byte) (n : Z) : Prop :=
  forall rest, pk.UnpackVarInt (l ++ rest) = Ok (n, rest).

(** The two kinds of failure of the session join that the error taxonomy
    names, as a caller can tell them from the error it receives. *)
Inductive failureKind : Type := NetworkFailure | AuthRejected.

Definition kindOf (e : error) : option failureKind :=
  if strings.HasPrefix e "post fail: " then Some NetworkFailure
  else if strings.HasPrefix e "auth fail: " then Some AuthRejected
  else None.

(** A matched pair of streams: one encrypts, the other decrypts, over the
    same block cipher and with equal feedback registers. *)
Definition matched (e d : CFB8.stream) : Prop :=
  CFB8.block e = CFB8.block d
  /\ CFB8.register e = CFB8.register d
  /\ CFB8.decrypt e = false
  /\ CFB8.decrypt d = true.

(** The session-join request as the code sends it: "an HTTP POST to the
    identity service's session-join endpoint", the body
    "{accessToken, selectedProfile:{id, name}, serverId: digest}", "a stable
    client identifier in User-Agent" and "Connection: keep-alive". *)
Definition joinRequest (P : Platform) (accessToken name id digest : string)
  : http.Request :=
  {| http.Method := "POST";
     http.URL := "https://sessionserver.mojang.com/session/minecraft/join";
     http.Header :=
       {[ "User-Agent"%string := ["gomcbot"%string];
          "Connection"%string := ["keep-alive"%string] ]};
     http.Body :=
       Bytes.of_string
         (json.encode (json_quote P)
            (json.Object
               [("accessToken"%string, json.Str accessToken);
                ("selectedProfile"%string,
                 json.Object [("id"%string, json.Str id);
                              ("name"%string, json.Str name)]);
                ("serverId"%string, json.Str digest)])) |}.

End Spec.

(** * Properties *)

(** ** Bytes *)

Lemma to_Z_range (b : byte) : 0 <= Bytes.to_Z b < 256.
Proof.
  unfold Bytes.to_Z. pose proof (Byte.to_N_bounded b). lia.
Qed.

Lemma of_to_Z (b : byte) : Bytes.of_Z (Bytes.to_Z b) = b.
Proof.
  unfold Bytes.of_Z, Bytes.to_Z. pose proof (Byte.to_N_bounded b).
  rewrite Z.mod_small by lia. rewrite N2Z.id. now rewrite Byte.of_to_N.
Qed.

Lemma to_of_Z (z : Z) : Bytes.to_Z (Bytes.of_Z z) = z mod 256.
Proof.
  unfold Bytes.of_Z, Bytes.to_Z.
  pose proof (Z.mod_pos_bound z 256 ltac:(lia)) as Hz.
  destruct (Byte.of_N (Z.to_N (z mod 256))) as [b|] eqn:E.
  - apply Byte.to_of_N in E. rewrite E. lia.
  - apply Byte.of_N_None_iff in E. lia.
Qed.

Lemma to_Z_inj (a b : byte) : Bytes.to_Z a = Bytes.to_Z b -> a = b.
Proof. intros H. rewrite <- (of_to_Z a), <- (of_to_Z b). now rewrite H. Qed.

Lemma to_Z_not (b : byte) : Bytes.to_Z (Bytes.not b) = 255 - Bytes.to_Z b.
Proof. destruct b; reflexivity. Qed.

Lemma to_Z_inc (b : byte) :
  Bytes.to_Z (Bytes.inc b) = (Bytes.to_Z b + 1) mod 256.
Proof. unfold Bytes.inc. apply to_of_Z. Qed.

Lemma eqb_xff (b : byte) : Byte.eqb b xff = (Bytes.to_Z b =? 255).
Proof. destruct b; reflexivity. Qed.

Lemma be_value_from (p : list byte) (acc : Z) :
  fold_left (fun a b => a * 256 + Bytes.to_Z b) p acc
  = acc * 256 ^ len p + Bytes.be_value p.
Proof.
  unfold Bytes.be_value, len. revert acc.
  induction p as [|b p IH]; intros acc; cbn [fold_left length].
  - cbn. lia.
  - rewrite IH, (IH (0 * 256 + _)).
    rewrite Nat2Z.inj_succ, Z.pow_succ_r by lia. lia.
Qed.

Lemma be_value_cons (b : byte) (p : list byte) :
  Bytes.be_value (b :: p) = Bytes.to_Z b * 256 ^ len p + Bytes.be_value p.
Proof.
  unfold Bytes.be_value at 1. cbn [fold_left]. now rewrite be_value_from.
Qed.

Lemma be_value_nil : Bytes.be_value [] = 0.
Proof. reflexivity. Qed.

Lemma be_value_bound (p : list byte) : 0 <= Bytes.be_value p < 256 ^ len p.
Proof.
  induction p as [|b p IH].
  - rewrite be_value_nil. change (256 ^ len (@nil byte)) with 1. lia.
  - rewrite be_value_cons. unfold len in *. cbn [length].
    rewrite Nat2Z.inj_succ, Z.pow_succ_r by lia.
    pose proof (to_Z_range b). nia.
Qed.

(** ** [twosComplement] *)

Lemma insert_middle {A} (l1 l2 : list A) (x y : A) :
  <[length l1 := y]> (l1 ++ x :: l2) = l1 ++ y :: l2.
Proof.
  rewrite insert_app_r_alt by lia. now rewrite Nat.sub_diag.
Qed.

Lemma plusOne_snoc (l : list byte) (x : byte) :
  Spec.plusOne (l ++ [x])
  = if Byte.eqb x xff
    then (fst (Spec.plusOne l) ++ [Bytes.inc x], snd (Spec.plusOne l))
    else (l ++ [Bytes.inc x], false).
Proof.
  induction l as [|a l IH].
  - cbn. now destruct (Byte.eqb x xff).
  - cbn [app Spec.plusOne]. rewrite IH.
    destruct (Byte.eqb x xff); [|reflexivity].
    destruct (Spec.plusOne l) as [r c]. cbn [fst snd].
    now destruct c.
Qed.

(** The loop, run over a prefix of the slice, inverts the prefix and, when it
    starts with a carry, adds one to it; the rest of the slice is untouched. *)
Lemma twosComplement_loop_spec (pre suf : list byte) (carry : bool) :
  twosComplement_loop (length pre) (pre ++ suf) carry
  = (if carry then fst (Spec.plusOne (Spec.invert pre)) else Spec.invert pre)
    ++ suf.
Proof.
  revert suf carry. induction pre as [|b pre IH] using rev_ind; intros suf carry.
  - cbn. now destruct carry.
  - rewrite length_app, Nat.add_1_r. cbn [twosComplement_loop].
    rewrite <- app_assoc. cbn [app].
    rewrite (list_lookup_total_middle pre suf b (length pre) eq_refl).
    rewrite insert_middle.
    rewrite (list_lookup_total_middle pre suf _ (length pre) eq_refl).
    unfold Spec.invert. rewrite map_app. cbn [map].
    destruct carry.
    + rewrite insert_middle, IH, plusOne_snoc.
      destruct (Byte.eqb (Bytes.not b) xff); cbn [fst];
        now rewrite <- app_assoc.
    + rewrite IH. now rewrite <- app_assoc.
Qed.

Lemma twosComplement_negate (p : list byte) :
  twosComplement p = Spec.negate p.
Proof.
  unfold twosComplement, Spec.negate.
  rewrite <- (app_nil_r p) at 2. rewrite twosComplement_loop_spec.
  apply app_nil_r.
Qed.

Lemma len_invert (p : list byte) : len (Spec.invert p) = len p.
Proof. unfold len, Spec.invert. now rewrite length_map. Qed.

Lemma be_value_invert (p : list byte) :
  Bytes.be_value (Spec.invert p) = 256 ^ len p - 1 - Bytes.be_value p.
Proof.
  induction p as [|b p IH].
  - reflexivity.
  - cbn [Spec.invert map]. fold (Spec.invert p).
    rewrite !be_value_cons, len_invert, IH, to_Z_not.
    unfold len. cbn [length]. rewrite Nat2Z.inj_succ, Z.pow_succ_r by lia.
    lia.
Qed.

Lemma len_plusOne (p : list byte) : len (fst (Spec.plusOne p)) = len p.
Proof.
  unfold len. induction p as [|b p IH]; [reflexivity|].
  cbn [Spec.plusOne]. destruct (Spec.plusOne p) as [r c]. cbn [fst] in IH.
  destruct c; cbn [fst length]; lia.
Qed.

Lemma be_value_plusOne (p : list byte) :
  Bytes.be_value (fst (Spec.plusOne p))
  + (if snd (Spec.plusOne p) then 256 ^ len p else 0)
  = Bytes.be_value p + 1.
Proof.
  induction p as [|b p IH].
  - reflexivity.
  - pose proof (len_plusOne p) as Hl.
    cbn [Spec.plusOne]. destruct (Spec.plusOne p) as [r c].
    cbn [fst snd] in *.
    assert (Hp : len (b :: p) = len p + 1) by (unfold len; cbn [length]; lia).
    pose proof (to_Z_range b) as Hb.
    assert (0 <= len p) by (unfold len; lia).
    destruct c; cbn [fst snd]; rewrite !be_value_cons, Hl, ?Hp.
    + rewrite to_Z_inc, eqb_xff. rewrite Z.pow_add_r by lia.
      destruct (Z.eqb_spec (Bytes.to_Z b) 255) as [E|E].
      * rewrite E. change ((255 + 1) mod 256) with 0. lia.
      * rewrite Z.mod_small by lia. lia.
    + lia.
Qed.

(** On the bytes read as a number, [twosComplement] is negation modulo
    [256 ^ len p]. *)
Lemma be_value_twosComplement (p : list byte) :
  Bytes.be_value (twosComplement p) = (- Bytes.be_value p) mod 256 ^ len p.
Proof.
  rewrite twosComplement_negate. unfold Spec.negate.
  pose proof (be_value_plusOne (Spec.invert p)) as H.
  pose proof (be_value_bound (fst (Spec.plusOne (Spec.invert p)))) as Hb.
  rewrite len_plusOne, len_invert in Hb.
  rewrite be_value_invert, len_invert in H.
  pose proof (be_value_bound p) as Hp.
  set (m := 256 ^ len p) in *.
  destruct (snd (Spec.plusOne (Spec.invert p))).
  - assert (Bytes.be_value p = 0) as -> by lia.
    replace (Bytes.be_value _) with 0 by lia.
    now rewrite Z.mod_0_l by lia.
  - replace (- Bytes.be_value p) with (m - Bytes.be_value p + (-1) * m) by lia.
    rewrite Z.mod_add by lia. rewrite Z.mod_small by lia. lia.
Qed.

(** ** Hexadecimal rendering *)

(** A goal about a nibble [n], settled by trying the sixteen of them. *)
Ltac by_nibble n H :=
  rewrite <- (Z2Nat.id n) by lia;
  let k := fresh "k" in
  let Hk := fresh "Hk" in
  assert (Hk : (Z.to_nat n < 16)%nat) by lia;
  set (k := Z.to_nat n) in *; clearbody k; clear H;
  do 16 (destruct k as [|k]; [reflexivity|]); lia.

Lemma hexdigit_is_zero (n : Z) :
  0 <= n < 16 -> strings.contains "0" (fmt.hexdigit n) = (n =? 0).
Proof. intros H. by_nibble n H. Qed.

Lemma digitValue_hexdigit (n : Z) :
  0 <= n < 16 -> Spec.digitValue (fmt.hexdigit n) = Some n.
Proof. intros H. by_nibble n H. Qed.

Lemma nibbles_range (p : list byte) :
  Forall (fun n => 0 <= n < 16) (Spec.nibbles p).
Proof.
  induction p as [|b p IH]; [constructor|].
  pose proof (to_Z_range b).
  cbn [Spec.nibbles flat_map app]. repeat constructor; try exact IH.
  - apply Z.div_pos; lia.
  - apply Z.div_lt_upper_bound; lia.
  - apply Z.mod_pos_bound; lia.
  - apply Z.mod_pos_bound; lia.
Qed.

Lemma append_String (c : ascii) (s t : string) :
  String c s +:+ t = String c (s +:+ t).
Proof. reflexivity. Qed.

Lemma append_empty (t : string) : EmptyString +:+ t = t.
Proof. reflexivity. Qed.

Lemma Sprintf_x_nibbles (p : list byte) :
  fmt.Sprintf_x p = Spec.lowerHex (Spec.nibbles p).
Proof.
  induction p as [|b p IH]; [reflexivity|].
  cbn [fmt.Sprintf_x]. rewrite IH. reflexivity.
Qed.

Lemma TrimLeft_stripZeros (l : list Z) :
  Forall (fun n => 0 <= n < 16) l ->
  strings.TrimLeft (Spec.lowerHex l) "0" = Spec.lowerHex (Spec.stripZeros l).
Proof.
  induction 1 as [|n l Hn Hl IH]; [reflexivity|].
  unfold Spec.lowerHex in *. cbn [map string_of_list_ascii strings.TrimLeft].
  rewrite (hexdigit_is_zero n Hn).
  destruct (Z.eqb_spec n 0) as [->|Hne].
  - exact IH.
  - destruct n; [contradiction | reflexivity ..].
Qed.

(** The code's [TrimLeft] of [Sprintf("%x")] is the rendering of the
    specification. *)
Lemma TrimLeft_Sprintf_render (p : list byte) :
  strings.TrimLeft (fmt.Sprintf_x p) "0" = Spec.render p.
Proof.
  rewrite Sprintf_x_nibbles. apply TrimLeft_stripZeros, nibbles_range.
Qed.

Lemma hexValue_Sprintf_from (p : list byte) (acc : Z) :
  Spec.hexValue_from acc (fmt.Sprintf_x p)
  = Some (acc * 256 ^ len p + Bytes.be_value p).
Proof.
  revert acc. induction p as [|b p IH]; intros acc.
  - cbn [fmt.Sprintf_x Spec.hexValue_from]. rewrite be_value_nil.
    change (256 ^ len (@nil byte)) with 1. f_equal. lia.
  - pose proof (to_Z_range b) as Hb.
    cbn [fmt.Sprintf_x]. unfold fmt.hex_byte.
    rewrite !append_String, append_empty. cbn [Spec.hexValue_from].
    rewrite !digitValue_hexdigit.
    + rewrite IH, be_value_cons. f_equal.
      unfold len. cbn [length]. rewrite Nat2Z.inj_succ, Z.pow_succ_r by lia.
      pose proof (Z.div_mod (Bytes.to_Z b) 16 ltac:(lia)). nia.
    + apply Z.mod_pos_bound; lia.
    + split; [apply Z.div_pos; lia | apply Z.div_lt_upper_bound; lia].
Qed.

Lemma hexValue_TrimLeft (s : string) :
  Spec.hexValue (strings.TrimLeft s "0") = Spec.hexValue s.
Proof.
  unfold Spec.hexValue. induction s as [|c s IH]; [reflexivity|].
  cbn [strings.TrimLeft strings.contains].
  destruct (Ascii.eqb_spec c "0"%char) as [->|Hne]; [|reflexivity].
  rewrite IH. reflexivity.
Qed.

Lemma noLeadingZero_TrimLeft (s : string) :
  Spec.noLeadingZero (strings.TrimLeft s "0").
Proof.
  induction s as [|c s IH]; [exact I|].
  cbn [strings.TrimLeft strings.contains].
  destruct (Ascii.eqb_spec c "0"%char) as [->|Hne]; [exact IH | exact Hne].
Qed.

Lemma hexValue_render (p : list byte) :
  Spec.hexValue (Spec.render p) = Some (Bytes.be_value p).
Proof.
  rewrite <- TrimLeft_Sprintf_render, hexValue_TrimLeft.
  unfold Spec.hexValue. rewrite hexValue_Sprintf_from. f_equal; lia.
Qed.

(** ** [authDigest] *)

Lemma negative_highBit (b : byte) :
  (Z.land (Bytes.to_Z b) 0x80 =? 0x80) = Z.testbit (Bytes.to_Z b) 7.
Proof. destruct b; reflexivity. Qed.

Lemma highBit_ge (b : byte) :
  Z.testbit (Bytes.to_Z b) 7 = (128 <=? Bytes.to_Z b).
Proof. destruct b; reflexivity. Qed.

Lemma signedHex_negative (d : list byte) :
  (Z.land (Bytes.to_Z (d !!! 0%nat)) 0x80 =? 0x80) = Spec.highBit d.
Proof.
  destruct d as [|b d]; [reflexivity|]. apply negative_highBit.
Qed.

(** The code's rendering is the signed-hex string of the specification. *)
Lemma signedHex_spec (d : list byte) : signedHex d = Spec.signedHex d.
Proof.
  unfold signedHex, Spec.signedHex. rewrite signedHex_negative.
  destruct (Spec.highBit d).
  - now rewrite TrimLeft_Sprintf_render, twosComplement_negate.
  - apply TrimLeft_Sprintf_render.
Qed.

Lemma pow_256_len (d : list byte) : 2 ^ (8 * len d) = 256 ^ len d.
Proof.
  assert (0 <= len d) by (unfold len; lia).
  rewrite Z.pow_mul_r by lia. reflexivity.
Qed.

Lemma highBit_signedValue (d : list byte) :
  d <> [] -> Spec.highBit d = (Spec.signedValue d <? 0).
Proof.
  intros Hne.
  unfold Spec.signedValue. pose proof (be_value_bound d) as Hv.
  rewrite pow_256_len.
  destruct d as [|b d].
  - contradiction.
  - cbn [Spec.highBit]. rewrite highBit_ge.
    assert (Hl : len (b :: d) = len d + 1) by (unfold len; cbn [length]; lia).
    assert (0 <= len d) by (unfold len; lia).
    replace (8 * len (b :: d) - 1) with (7 + 8 * len d) by lia.
    rewrite Z.pow_add_r, pow_256_len by lia. change (2 ^ 7) with 128.
    rewrite Hl in *. rewrite Z.pow_add_r in * by lia.
    rewrite be_value_cons in *.
    pose proof (be_value_bound d) as Hd. pose proof (to_Z_range b) as Hb.
    change (256 ^ 1) with 256 in *.
    set (m := 256 ^ len d) in *. set (v := Bytes.be_value d) in *.
    destruct (Z.leb_spec 128 (Bytes.to_Z b));
      destruct (Z.leb_spec (128 * m) (Bytes.to_Z b * m + v));
      try (exfalso; nia).
    + symmetry. apply Z.ltb_lt. nia.
    + symmetry. apply Z.ltb_ge. nia.
Qed.

Lemma signedHex_magnitude (d : list byte) :
  d <> [] ->
  exists mag,
    signedHex d = (if Spec.signedValue d <? 0 then "-" +:+ mag else mag)
    /\ Spec.hexValue mag = Some (Z.abs (Spec.signedValue d))
    /\ Spec.noLeadingZero mag.
Proof.
  intros Hne. pose proof (highBit_signedValue d Hne) as Hs.
  unfold signedHex. rewrite signedHex_negative, Hs.
  pose proof (be_value_bound d) as Hv.
  assert (Hl : 1 <= len d)
    by (destruct d; [contradiction | unfold len; cbn [length]; lia]).
  assert (Hp : 0 < 2 ^ (8 * len d - 1)) by (apply Z.pow_pos_nonneg; lia).
  destruct (Z.ltb_spec (Spec.signedValue d) 0) as [Hneg|Hpos].
  - exists (strings.TrimLeft (fmt.Sprintf_x (twosComplement d)) "0").
    split; [reflexivity|]. split; [|apply noLeadingZero_TrimLeft].
    rewrite TrimLeft_Sprintf_render, hexValue_render, be_value_twosComplement.
    f_equal. unfold Spec.signedValue in *. rewrite pow_256_len in *.
    destruct (Z.leb_spec (2 ^ (8 * len d - 1)) (Bytes.be_value d)); [|lia].
    replace (- Bytes.be_value d)
      with (256 ^ len d - Bytes.be_value d + (-1) * 256 ^ len d) by lia.
    rewrite Z.mod_add by lia. rewrite Z.mod_small by lia. lia.
  - exists (strings.TrimLeft (fmt.Sprintf_x d) "0").
    split; [reflexivity|]. split; [|apply noLeadingZero_TrimLeft].
    rewrite TrimLeft_Sprintf_render, hexValue_render.
    f_equal. unfold Spec.signedValue in *. rewrite pow_256_len in *.
    destruct (Z.leb_spec (2 ^ (8 * len d - 1)) (Bytes.be_value d)); lia.
Qed.

Lemma length_sha1_Sum (h : list byte) : length (sha1.Sum h) = 20%nat.
Proof.
  unfold sha1.Sum.
  destruct (sha1.blocks _ _ _) as [[[[a b] c] d] e]. reflexivity.
Qed.

(** C1. For every server identifier, shared secret and public key,
    [authDigest] is the signed-hex rendering of the 20-byte SHA-1 digest of
    the three inputs concatenated: when the high bit of the first digest
    byte is set, the digest is negated (every byte inverted, then one added
    with the carry moving up from the last byte) and the text starts with
    ["-"]; the bytes are written in lowercase hexadecimal with the leading
    zero nibbles stripped. Read as numbers: the text is the sign and the
    hexadecimal numeral, without leading zero, of the magnitude of the digest
    taken as a two's-complement integer. A digest of twenty zero bytes
    renders as the empty string. *)
Theorem authDigest_signed_hex
    (serverID : string) (sharedSecret publicKey : list byte) :
  let d := sha1.Sum (Bytes.of_string serverID ++ sharedSecret ++ publicKey) in
  length d = 20%nat
  /\ authDigest serverID sharedSecret publicKey = Spec.signedHex d
  /\ (exists mag,
        authDigest serverID sharedSecret publicKey
        = (if Spec.signedValue d <? 0 then "-" +:+ mag else mag)
        /\ Spec.hexValue mag = Some (Z.abs (Spec.signedValue d))
        /\ Spec.noLeadingZero mag)
  /\ signedHex (repeat x00 20) = EmptyString.
Proof.
  intros d.
  assert (Hd : authDigest serverID sharedSecret publicKey = signedHex d).
  { unfold authDigest, sha1.Write, sha1.New, d.
    now rewrite app_nil_l, <- app_assoc. }
  split; [apply length_sha1_Sum|].
  split; [rewrite Hd; apply signedHex_spec|].
  split; [|reflexivity].
  rewrite Hd. apply signedHex_magnitude.
  intros E. pose proof (length_sha1_Sum
    (Bytes.of_string serverID ++ sharedSecret ++ publicKey)) as Hl.
  fold d in Hl. rewrite E in Hl. discriminate.
Qed.

(** ** The packet codec *)

Lemma to_of_Z_small (z : Z) : 0 <= z < 256 -> Bytes.to_Z (Bytes.of_Z z) = z.
Proof. intros H. rewrite to_of_Z. now apply Z.mod_small. Qed.

Lemma land_127_range (num : Z) : 0 <= Z.land num 0x7F < 128.
Proof.
  change 0x7F with (Z.ones 7). rewrite Z.land_ones by lia.
  apply Z.mod_pos_bound. lia.
Qed.

Lemma varint_last_byte (x : byte) :
  Bytes.to_Z x < 128 ->
  Z.land (Bytes.to_Z x) 0x7F = Bytes.to_Z x
  /\ (Z.land (Bytes.to_Z x) 0x80 =? 0) = true.
Proof.
  destruct x; intros H;
    first [split; reflexivity | vm_compute in H; discriminate H].
Qed.

Lemma varint_cont_byte (x : byte) :
  Bytes.to_Z x < 128 ->
  Z.land (Bytes.to_Z (Bytes.of_Z (Z.lor (Bytes.to_Z x) 0x80))) 0x7F
  = Bytes.to_Z x
  /\ (Z.land (Bytes.to_Z (Bytes.of_Z (Z.lor (Bytes.to_Z x) 0x80))) 0x80 =? 0)
     = false.
Proof.
  destruct x; intros H;
    first [split; reflexivity | vm_compute in H; discriminate H].
Qed.

Lemma split_low7 (num : Z) :
  Z.lor (Z.land num 0x7F) (Z.shiftl (Z.shiftr num 7) 7) = num.
Proof.
  apply Z.bits_inj'. intros k Hk.
  rewrite Z.lor_spec, Z.land_spec.
  change 0x7F with (Z.ones 7).
  destruct (Z.lt_ge_cases k 7) as [Hlt|Hge].
  - rewrite Z.ones_spec_low by lia. rewrite Z.shiftl_spec_low by lia.
    now rewrite andb_true_r, orb_false_r.
  - rewrite Z.ones_spec_high by lia. rewrite Z.shiftl_spec by lia.
    rewrite Z.shiftr_spec by lia. rewrite andb_false_r. cbn [orb].
    f_equal. lia.
Qed.

(** Decoding what [PackVarInt_loop] wrote, whatever follows it. *)
Lemma UnpackVarInt_loop_Pack (fuel : nat) (i acc num : Z) (rest : list byte) :
  0 <= i -> 0 <= num < 2 ^ (7 * Z.of_nat fuel) -> (0 < fuel)%nat ->
  pk.UnpackVarInt_loop fuel i acc (pk.PackVarInt_loop fuel num ++ rest)
  = Ok (int32 (Z.lor acc (Z.shiftl num (7 * i))), rest).
Proof.
  revert i acc num. induction fuel as [|fuel IH]; intros i acc num Hi Hnum Hf.
  - lia.
  - cbn [pk.PackVarInt_loop pk.UnpackVarInt_loop].
    pose proof (land_127_range num) as Hb.
    pose proof (split_low7 num) as Hsplit.
    assert (Hx : Z.land num 0x7F = Bytes.to_Z (Bytes.of_Z (Z.land num 0x7F)))
      by (symmetry; apply to_of_Z_small; lia).
    assert (Hx128 : Bytes.to_Z (Bytes.of_Z (Z.land num 0x7F)) < 128) by lia.
    set (x := Bytes.of_Z (Z.land num 0x7F)) in *. clearbody x.
    destruct (Z.eqb_spec (Z.shiftr num 7) 0) as [E|E].
    + cbn [app].
      destruct (varint_last_byte x Hx128) as [-> ->].
      rewrite E in Hsplit. cbn in Hsplit. rewrite Z.lor_0_r in Hsplit.
      now rewrite <- Hx, Hsplit.
    + cbn [app]. rewrite Hx.
      destruct (varint_cont_byte x Hx128) as [-> ->].
      assert (Hs : 0 <= Z.shiftr num 7 < 2 ^ (7 * Z.of_nat fuel)).
      { rewrite Z.shiftr_div_pow2 by lia. split.
        - apply Z.div_pos; lia.
        - apply Z.div_lt_upper_bound; [lia|].
          rewrite <- Z.pow_add_r by lia.
          replace (7 + 7 * Z.of_nat fuel) with (7 * Z.of_nat (S fuel)) by lia.
          lia. }
      assert ((0 < fuel)%nat).
      { destruct fuel; [|lia]. cbn in Hs. lia. }
      assert (Hk : Z.lor (Z.shiftl (Bytes.to_Z x) (7 * i))
                         (Z.shiftl (Z.shiftr num 7) (7 * (i + 1)))
                   = Z.shiftl num (7 * i)).
      { replace (7 * (i + 1)) with (7 + 7 * i) by lia.
        rewrite <- Z.shiftl_shiftl by lia. rewrite <- Z.shiftl_lor.
        now rewrite <- Hx, Hsplit. }
      rewrite IH by lia. now rewrite <- Z.lor_assoc, Hk.
Qed.

Lemma int32_uint32 (n : Z) : int32 (uint32 n) = int32 n.
Proof.
  unfold int32, uint32. f_equal.
  rewrite <- Z.add_mod_idemp_l by lia. rewrite Z.mod_mod by lia.
  now rewrite Z.add_mod_idemp_l by lia.
Qed.

Lemma int32_small (n : Z) : - 2 ^ 31 <= n < 2 ^ 31 -> int32 n = n.
Proof. intros H. unfold int32. rewrite Z.mod_small by lia. lia. Qed.

Lemma int32_range (n : Z) : - 2 ^ 31 <= int32 n < 2 ^ 31.
Proof.
  unfold int32. pose proof (Z.mod_pos_bound (n + 2 ^ 31) (2 ^ 32) ltac:(lia)).
  lia.
Qed.

Lemma int32_idem (n : Z) : int32 (int32 n) = int32 n.
Proof. apply int32_small, int32_range. Qed.

(** What [PackVarInt] writes is a complete variable-length integer. *)
Lemma isVarInt_PackVarInt (n : Z) : Spec.isVarInt (pk.PackVarInt n) (int32 n).
Proof.
  intros rest. unfold pk.UnpackVarInt, pk.PackVarInt.
  rewrite UnpackVarInt_loop_Pack.
  - rewrite Z.lor_0_l. change (7 * 0) with 0. rewrite Z.shiftl_0_r.
    now rewrite int32_uint32.
  - lia.
  - unfold uint32. pose proof (Z.mod_pos_bound n (2 ^ 32) ltac:(lia)).
    change (7 * Z.of_nat 5) with 35. lia.
  - lia.
Qed.

(** A successful [UnpackVarInt] has read a complete variable-length
    integer off the front of the reader. *)
Lemma UnpackVarInt_loop_inv (fuel : nat) (i acc : Z) (r r' : list byte)
    (n : Z) :
  pk.UnpackVarInt_loop fuel i acc r = Ok (n, r') ->
  exists l, r = l ++ r'
    /\ forall rest, pk.UnpackVarInt_loop fuel i acc (l ++ rest) = Ok (n, rest).
Proof.
  revert i acc r. induction fuel as [|fuel IH]; intros i acc r H.
  - discriminate H.
  - cbn [pk.UnpackVarInt_loop] in H. destruct r as [|sec r0]; [discriminate H|].
    destruct (Z.land (Bytes.to_Z sec) 0x80 =? 0) eqn:E.
    + injection H as <- <-. exists [sec]. split; [reflexivity|].
      intros rest. cbn [app pk.UnpackVarInt_loop]. now rewrite E.
    + apply IH in H as (l & -> & Hl). exists (sec :: l).
      split; [reflexivity|].
      intros rest. cbn [app pk.UnpackVarInt_loop]. rewrite E. apply Hl.
Qed.

Lemma UnpackVarInt_inv (r r' : list byte) (n : Z) :
  pk.UnpackVarInt r = Ok (n, r') -> exists l, r = l ++ r' /\ Spec.isVarInt l n.
Proof. apply UnpackVarInt_loop_inv. Qed.

Lemma ReadNBytes_exact (l rest : list byte) :
  pk.ReadNBytes (len l) (l ++ rest) = Ok (l, rest).
Proof.
  unfold pk.ReadNBytes, len. rewrite length_app.
  destruct (Z.ltb_spec (Z.of_nat (length l)) 0); [lia|].
  destruct (Z.ltb_spec (Z.of_nat (length l + length rest))
              (Z.of_nat (length l))); [lia|].
  cbn [orb]. rewrite Nat2Z.id.
  now rewrite take_app_length, drop_app_length.
Qed.

Lemma ReadNBytes_overrun (n : Z) (r : list byte) :
  len r < n -> pk.ReadNBytes n r = Err pk.MalformedPacket.
Proof.
  intros H. unfold pk.ReadNBytes.
  destruct (Z.ltb_spec (len r) n); [|lia]. now rewrite orb_true_r.
Qed.

Lemma ReadNBytes_inv (n : Z) (r bs r' : list byte) :
  pk.ReadNBytes n r = Ok (bs, r') -> r = bs ++ r' /\ len bs = n.
Proof.
  unfold pk.ReadNBytes, len.
  destruct (Z.ltb_spec n 0); [discriminate|].
  destruct (Z.ltb_spec (Z.of_nat (length r)) n); [discriminate|].
  cbn [orb]. intros Hr. injection Hr as <- <-. split.
  - symmetry. apply take_drop.
  - rewrite length_take. lia.
Qed.

Lemma to_of_string (bs : list byte) :
  Bytes.of_string (Bytes.to_string bs) = bs.
Proof. apply list_byte_of_string_of_list_byte. Qed.

Lemma of_to_string (s : string) : Bytes.to_string (Bytes.of_string s) = s.
Proof. apply string_of_list_byte_of_string. Qed.

(** ** [unpackEncryptionRequest] *)

Lemma UnpackString_inv (r r' : list byte) (s : string) :
  pk.UnpackString r = Ok (s, r') ->
  exists l, r = l ++ Bytes.of_string s ++ r'
    /\ Spec.isVarInt l (len (Bytes.of_string s))
    /\ utf8.Valid (Bytes.of_string s) = true.
Proof.
  unfold pk.UnpackString, pk.bind. intros H.
  destruct (pk.UnpackVarInt r) as [[n r1]|] eqn:E1; [|discriminate H].
  destruct (pk.ReadNBytes n r1) as [[bs r2]|] eqn:E2; [|discriminate H].
  destruct (utf8.Valid bs) eqn:E3; [|discriminate H].
  injection H as <- <-. rewrite to_of_string.
  apply UnpackVarInt_inv in E1 as (l & -> & Hl).
  apply ReadNBytes_inv in E2 as [-> <-].
  exists l. auto.
Qed.

Lemma UnpackString_framed (l bs rest : list byte) :
  Spec.isVarInt l (len bs) ->
  pk.UnpackString (l ++ bs ++ rest)
  = if utf8.Valid bs then Ok (Bytes.to_string bs, rest)
    else Err pk.MalformedPacket.
Proof.
  intros Hl. unfold pk.UnpackString, pk.bind.
  rewrite Hl, ReadNBytes_exact. now destruct (utf8.Valid bs).
Qed.

Lemma UnpackString_overrun (l tail : list byte) (n : Z) :
  Spec.isVarInt l n -> len tail < n ->
  pk.UnpackString (l ++ tail) = Err pk.MalformedPacket.
Proof.
  intros Hl Hn. unfold pk.UnpackString, pk.bind.
  now rewrite Hl, ReadNBytes_overrun.
Qed.

(** The decoder of the payload, step by step: each step works on what the
    step before left, and the first error is the result. *)
Lemma unpackEncryptionRequest_steps (p : pk.Packet) :
  unpackEncryptionRequest p
  = match pk.UnpackString (bytes.NewReader (pk.Data p)) with
    | Err e => Err e
    | Ok (serverID, r1) =>
        match pk.UnpackVarInt r1 with
        | Err e => Err e
        | Ok (publicKeyLength, r2) =>
            match pk.ReadNBytes publicKeyLength r2 with
            | Err e => Err e
            | Ok (publicKey, r3) =>
                match pk.UnpackVarInt r3 with
                | Err e => Err e
                | Ok (verifyTokenLength, r4) =>
                    match pk.ReadNBytes verifyTokenLength r4 with
                    | Err e => Err e
                    | Ok (verifyToken, _) =>
                        Ok {| ServerID := serverID;
                              PublicKey := publicKey;
                              VerifyToken := verifyToken |}
                    end
                end
            end
        end
    end.
Proof.
  unfold unpackEncryptionRequest, unpackEncryptionRequest_body, pk.bind, pk.ret.
  destruct (pk.UnpackString _) as [[s r1]|]; [|reflexivity].
  destruct (pk.UnpackVarInt r1) as [[n1 r2]|]; [|reflexivity].
  destruct (pk.ReadNBytes n1 r2) as [[k r3]|]; [|reflexivity].
  destruct (pk.UnpackVarInt r3) as [[n2 r4]|]; [|reflexivity].
  destruct (pk.ReadNBytes n2 r4) as [[t r5]|]; reflexivity.
Qed.

(** The payloads that hold the three fields, one after the other. *)
Lemma unpackEncryptionRequest_Ok (p : pk.Packet) (er : encryptionRequest) :
  unpackEncryptionRequest p = Ok er <->
  exists l1 l2 l3 rest,
    pk.Data p = l1 ++ Bytes.of_string (ServerID er)
                ++ l2 ++ PublicKey er ++ l3 ++ VerifyToken er ++ rest
    /\ Spec.isVarInt l1 (len (Bytes.of_string (ServerID er)))
    /\ utf8.Valid (Bytes.of_string (ServerID er)) = true
    /\ Spec.isVarInt l2 (len (PublicKey er))
    /\ Spec.isVarInt l3 (len (VerifyToken er)).
Proof.
  rewrite unpackEncryptionRequest_steps. unfold bytes.NewReader. split.
  - intros H.
    destruct (pk.UnpackString _) as [[s r1]|] eqn:E0; [|discriminate H].
    destruct (pk.UnpackVarInt r1) as [[n1 r2]|] eqn:E1; [|discriminate H].
    destruct (pk.ReadNBytes n1 r2) as [[k r3]|] eqn:E2; [|discriminate H].
    destruct (pk.UnpackVarInt r3) as [[n2 r4]|] eqn:E3; [|discriminate H].
    destruct (pk.ReadNBytes n2 r4) as [[t r5]|] eqn:E4; [|discriminate H].
    injection H as <-. cbn [ServerID PublicKey VerifyToken].
    apply UnpackString_inv in E0 as (l1 & -> & Hl1 & Hv).
    apply UnpackVarInt_inv in E1 as (l2 & -> & Hl2).
    apply ReadNBytes_inv in E2 as [-> <-].
    apply UnpackVarInt_inv in E3 as (l3 & -> & Hl3).
    apply ReadNBytes_inv in E4 as [-> <-].
    exists l1, l2, l3, r5. auto.
  - intros (l1 & l2 & l3 & rest & -> & Hl1 & Hv & Hl2 & Hl3).
    rewrite (UnpackString_framed _ _ _ Hl1), Hv.
    rewrite Hl2, ReadNBytes_exact, Hl3, ReadNBytes_exact.
    rewrite of_to_string. now destruct er.
Qed.

(** X7. A request written with the framing the parser expects (each field
    behind its byte count, in the order server id, public key, verify token)
    is read back unchanged, whatever follows it in the payload. *)
Lemma unpackEncryptionRequest_round_trip (er : encryptionRequest)
    (id : byte) (rest : list byte) :
  utf8.Valid (Bytes.of_string (ServerID er)) = true ->
  len (Bytes.of_string (ServerID er)) < 2 ^ 31 ->
  len (PublicKey er) < 2 ^ 31 ->
  len (VerifyToken er) < 2 ^ 31 ->
  unpackEncryptionRequest
    {| pk.ID := id;
       pk.Data := pk.PackString (ServerID er)
                  ++ pk.PackVarInt (int32 (len (PublicKey er)))
                  ++ PublicKey er
                  ++ pk.PackVarInt (int32 (len (VerifyToken er)))
                  ++ VerifyToken er ++ rest |}
  = Ok er.
Proof.
  intros Hv Hs Hk Ht. apply unpackEncryptionRequest_Ok.
  assert (Hl : forall l : list byte,
             len l < 2 ^ 31 ->
             Spec.isVarInt (pk.PackVarInt (int32 (len l))) (len l)).
  { intros l Hlen. assert (0 <= len l) by (unfold len; lia).
    pose proof (isVarInt_PackVarInt (int32 (len l))) as Hi.
    rewrite int32_idem in Hi.
    rewrite (int32_small (len l)) in * by lia. exact Hi. }
  exists (pk.PackVarInt (int32 (len (Bytes.of_string (ServerID er))))),
    (pk.PackVarInt (int32 (len (PublicKey er)))),
    (pk.PackVarInt (int32 (len (VerifyToken er)))), rest.
  cbn [pk.Data]. unfold pk.PackString. rewrite <- !app_assoc. auto 10.
Qed.

(** C3. [unpackEncryptionRequest] decodes, in this order, the
    length-prefixed string [serverId], the length-prefixed bytes
    [publicKey] and the length-prefixed bytes [verifyToken], each decoder
    starting where the one before stopped and the first failure being the
    result. It returns a request exactly for the payloads that begin with
    the three framed fields (the string being valid UTF-8), and the request
    holds these three fields. A declared length that exceeds what is left
    of the payload, for any of the three fields, and a string that is not
    valid UTF-8, give the error [MalformedPacket]; the outcome is always a
    request or an error. *)
Theorem unpackEncryptionRequest_strict (p : pk.Packet) :
  (unpackEncryptionRequest p
   = match pk.UnpackString (bytes.NewReader (pk.Data p)) with
     | Err e => Err e
     | Ok (serverID, r1) =>
         match pk.UnpackVarInt r1 with
         | Err e => Err e
         | Ok (publicKeyLength, r2) =>
             match pk.ReadNBytes publicKeyLength r2 with
             | Err e => Err e
             | Ok (publicKey, r3) =>
                 match pk.UnpackVarInt r3 with
                 | Err e => Err e
                 | Ok (verifyTokenLength, r4) =>
                     match pk.ReadNBytes verifyTokenLength r4 with
                     | Err e => Err e
                     | Ok (verifyToken, _) =>
                         Ok {| ServerID := serverID;
                               PublicKey := publicKey;
                               VerifyToken := verifyToken |}
                     end
                 end
             end
         end
     end)
  /\ (forall er,
        unpackEncryptionRequest p = Ok er <->
        exists l1 l2 l3 rest,
          pk.Data p = l1 ++ Bytes.of_string (ServerID er)
                      ++ l2 ++ PublicKey er ++ l3 ++ VerifyToken er ++ rest
          /\ Spec.isVarInt l1 (len (Bytes.of_string (ServerID er)))
          /\ utf8.Valid (Bytes.of_string (ServerID er)) = true
          /\ Spec.isVarInt l2 (len (PublicKey er))
          /\ Spec.isVarInt l3 (len (VerifyToken er)))
  /\ (forall l1 n tail,
        pk.Data p = l1 ++ tail -> Spec.isVarInt l1 n -> len tail < n ->
        unpackEncryptionRequest p = Err pk.MalformedPacket)
  /\ (forall l1 sid tail,
        pk.Data p = l1 ++ sid ++ tail -> Spec.isVarInt l1 (len sid) ->
        utf8.Valid sid = false ->
        unpackEncryptionRequest p = Err pk.MalformedPacket)
  /\ (forall l1 sid l2 n tail,
        pk.Data p = l1 ++ sid ++ l2 ++ tail ->
        Spec.isVarInt l1 (len sid) -> utf8.Valid sid = true ->
        Spec.isVarInt l2 n -> len tail < n ->
        unpackEncryptionRequest p = Err pk.MalformedPacket)
  /\ (forall l1 sid l2 key l3 n tail,
        pk.Data p = l1 ++ sid ++ l2 ++ key ++ l3 ++ tail ->
        Spec.isVarInt l1 (len sid) -> utf8.Valid sid = true ->
        Spec.isVarInt l2 (len key) ->
        Spec.isVarInt l3 n -> len tail < n ->
        unpackEncryptionRequest p = Err pk.MalformedPacket).
Proof.
  split; [apply unpackEncryptionRequest_steps|].
  split; [intros er; apply unpackEncryptionRequest_Ok|].
  rewrite unpackEncryptionRequest_steps. unfold bytes.NewReader.
  repeat split.
  - intros l1 n tail -> Hl1 Hn.
    now rewrite (UnpackString_overrun _ _ _ Hl1 Hn).
  - intros l1 sid tail -> Hl1 Hv.
    now rewrite (UnpackString_framed _ _ _ Hl1), Hv.
  - intros l1 sid l2 n tail -> Hl1 Hv Hl2 Hn.
    rewrite (UnpackString_framed _ _ _ Hl1), Hv, Hl2.
    now rewrite ReadNBytes_overrun.
  - intros l1 sid l2 key l3 n tail -> Hl1 Hv Hl2 Hl3 Hn.
    rewrite (UnpackString_framed _ _ _ Hl1), Hv, Hl2, ReadNBytes_exact, Hl3.
    now rewrite ReadNBytes_overrun.
Qed.

(** ** [newHandshakePacket] and [newLoginStartPacket] *)

Lemma be_value_PackUint16 (n : Z) :
  0 <= n < 2 ^ 16 -> Bytes.be_value (pk.PackUint16 n) = n.
Proof.
  intros H. unfold pk.PackUint16.
  rewrite be_value_cons, be_value_cons, be_value_nil, !to_of_Z.
  change (len [Bytes.of_Z n]) with 1. change (len (@nil byte)) with 0.
  rewrite Z.shiftr_div_pow2 by lia. change (2 ^ 8) with 256.
  change (256 ^ 1) with 256. change (256 ^ 0) with 1.
  rewrite (Z.mod_small (n / 256)).
  - pose proof (Z.div_mod n 256 ltac:(lia)). lia.
  - split; [apply Z.div_pos; lia | apply Z.div_lt_upper_bound; lia].
Qed.

(** C9. The two plaintext packets are functions of their arguments alone.
    The handshake packet has opcode [0x00] and its payload is the protocol
    version (as a 32-bit integer) as a variable-length integer, the address
    as a length-prefixed string, the port (as an unsigned 16-bit integer) on
    two bytes, the most significant first, and the next state on one byte.
    The login-start packet has opcode [0x00] and its payload is the user
    name as a length-prefixed string. *)
Theorem plaintext_packets_layout
    (protocolVersion : Z) (addr : string) (port : Z) (nextState : byte)
    (userName : string) :
  pk.ID (newHandshakePacket protocolVersion addr port nextState) = x00
  /\ pk.Data (newHandshakePacket protocolVersion addr port nextState)
     = pk.PackVarInt (int32 protocolVersion)
       ++ (pk.PackVarInt (int32 (len (Bytes.of_string addr)))
           ++ Bytes.of_string addr)
       ++ [Bytes.of_Z (uint16 port / 256); Bytes.of_Z (uint16 port mod 256)]
       ++ [nextState]
  /\ Spec.isVarInt (pk.PackVarInt (int32 protocolVersion))
       (int32 protocolVersion)
  /\ Bytes.be_value
       [Bytes.of_Z (uint16 port / 256); Bytes.of_Z (uint16 port mod 256)]
     = port mod 2 ^ 16
  /\ pk.ID (newLoginStartPacket userName) = x00
  /\ pk.Data (newLoginStartPacket userName)
     = pk.PackVarInt (int32 (len (Bytes.of_string userName)))
       ++ Bytes.of_string userName.
Proof.
  assert (Hu : 0 <= uint16 port < 2 ^ 16)
    by (unfold uint16; apply Z.mod_pos_bound; lia).
  assert (Hb : pk.PackUint16 (uint16 port)
               = [Bytes.of_Z (uint16 port / 256);
                  Bytes.of_Z (uint16 port mod 256)]).
  { unfold pk.PackUint16. rewrite Z.shiftr_div_pow2 by lia.
    change (2 ^ 8) with 256. do 2 f_equal.
    apply to_Z_inj. rewrite !to_of_Z. now rewrite Z.mod_mod by lia. }
  split; [reflexivity|]. split.
  - unfold newHandshakePacket, pk.PackString. cbn [pk.Data app].
    rewrite Hb. now rewrite <- !app_assoc.
  - split.
    + rewrite <- (int32_idem protocolVersion) at 2.
      apply isVarInt_PackVarInt.
    + split; [|split; reflexivity].
      rewrite <- Hb. now apply be_value_PackUint16.
Qed.

(** ** [genEncryptionKeyResponse] *)

(** Reading back the payload of the response: a length, that many bytes, a
    length, that many bytes, and nothing is left. *)
Lemma response_payload_reads_back (c1 c2 : list byte) :
  len c1 < 2 ^ 31 -> len c2 < 2 ^ 31 ->
  (let* n1 := pk.UnpackVarInt in
   let* b1 := pk.ReadNBytes n1 in
   let* n2 := pk.UnpackVarInt in
   let* b2 := pk.ReadNBytes n2 in
   pk.ret (b1, b2))%decoder
    (pk.PackVarInt (int32 (len c1)) ++ c1
     ++ pk.PackVarInt (int32 (len c2)) ++ c2)
  = Ok ((c1, c2), []).
Proof.
  intros H1 H2. unfold pk.bind, pk.ret.
  assert (0 <= len c1) by (unfold len; lia).
  assert (0 <= len c2) by (unfold len; lia).
  rewrite (isVarInt_PackVarInt (int32 (len c1))).
  rewrite int32_idem, int32_small by lia. rewrite ReadNBytes_exact.
  rewrite (isVarInt_PackVarInt (int32 (len c2))).
  rewrite int32_idem, int32_small by lia.
  rewrite <- (app_nil_r c2) at 2. now rewrite ReadNBytes_exact.
Qed.

(** The server key does not decode: an error, no packet. *)
Lemma genEncryptionKeyResponse_undecodable (P : Platform) (rnd : Rand P)
    (shareSecret publicKey verifyToken : list byte) (e : error) :
  x509_ParsePKIXPublicKey P publicKey = Err e ->
  genEncryptionKeyResponse P rnd shareSecret publicKey verifyToken
  = (Failed ("decode public key fail: " +:+ e), rnd).
Proof. intros H. unfold genEncryptionKeyResponse. now rewrite H. Qed.

(** C2, as the code behaves: when the server key decodes to a public key
    that is not an RSA key, [genEncryptionKeyResponse] panics at the type
    assertion; it returns neither an error nor a packet. *)
Theorem genEncryptionKeyResponse_not_rsa_panics (P : Platform) (rnd : Rand P)
    (shareSecret publicKey verifyToken : list byte) (k : x509.key) :
  x509_ParsePKIXPublicKey P publicKey = Ok k ->
  match k with x509.RSA _ => False | _ => True end ->
  exists msg,
    genEncryptionKeyResponse P rnd shareSecret publicKey verifyToken
    = (Panicked msg, rnd).
Proof.
  intros H Hk. unfold genEncryptionKeyResponse. rewrite H.
  destruct k; [contradiction | eexists; reflexivity ..].
Qed.

(** The fixture's decoder on an ECDSA P-256 key. *)
Lemma genEncryptionKeyResponse_not_rsa_panics_witness :
  exists msg,
    genEncryptionKeyResponse (Fixture.platform Fixture.unreachable)
      (Fixture.pool 400) (repeat x00 16) Fixture.ecKeyDER [x01; x02; x03; x04]
    = (Panicked msg, Fixture.pool 400).
Proof.
  apply (genEncryptionKeyResponse_not_rsa_panics
           (Fixture.platform Fixture.unreachable) (Fixture.pool 400)
           (repeat x00 16) Fixture.ecKeyDER [x01; x02; x03; x04]
           (x509.ECDSA
              0x6b17d1f2e12c4247f8bce6e563a440f277037d812deb33a0f4a13945d898c296
              0x4fe342e2fe1a7f9b8ee7eb4a7c0f9e162bce33576b315ececbb6406837bf51f5)).
  - vm_compute. reflexivity.
  - exact I.
Defined.

(** C6. When [genEncryptionKeyResponse] returns a packet, the server key
    decoded to an RSA key, the shared secret was encrypted first and the
    verify token second (the random source passing from one encryption to
    the next), the packet has opcode [0x01], and its payload is the byte
    count of the first ciphertext as a variable-length integer, the first
    ciphertext, the byte count of the second ciphertext as a variable-length
    integer, the second ciphertext, and nothing else: reading the payload
    back gives the two ciphertexts and leaves no byte. *)
Theorem genEncryptionKeyResponse_layout (P : Platform) (rnd rnd' : Rand P)
    (shareSecret publicKey verifyToken : list byte) (erp : pk.Packet) :
  genEncryptionKeyResponse P rnd shareSecret publicKey verifyToken
  = (Returned erp, rnd') ->
  exists rsaKey cryptPK verifyT rnd1,
    x509_ParsePKIXPublicKey P publicKey = Ok (x509.RSA rsaKey)
    /\ rsa_EncryptPKCS1v15 P rnd rsaKey shareSecret = (Ok cryptPK, rnd1)
    /\ rsa_EncryptPKCS1v15 P rnd1 rsaKey verifyToken = (Ok verifyT, rnd')
    /\ pk.ID erp = x01
    /\ pk.Data erp
       = pk.PackVarInt (int32 (len cryptPK)) ++ cryptPK
         ++ pk.PackVarInt (int32 (len verifyT)) ++ verifyT
    /\ (len cryptPK < 2 ^ 31 -> len verifyT < 2 ^ 31 ->
        (let* n1 := pk.UnpackVarInt in
         let* b1 := pk.ReadNBytes n1 in
         let* n2 := pk.UnpackVarInt in
         let* b2 := pk.ReadNBytes n2 in
         pk.ret (b1, b2))%decoder (pk.Data erp)
        = Ok ((cryptPK, verifyT), [])).
Proof.
  unfold genEncryptionKeyResponse. intros H.
  destruct (x509_ParsePKIXPublicKey P publicKey) as [k|] eqn:Ek;
    [|discriminate H].
  destruct k as [rsaKey| | |]; try discriminate H.
  destruct (rsa_EncryptPKCS1v15 P rnd rsaKey shareSecret)
    as [[cryptPK|] rnd1] eqn:E1; [|discriminate H].
  destruct (rsa_EncryptPKCS1v15 P rnd1 rsaKey verifyToken)
    as [[verifyT|] rnd2] eqn:E2; [|discriminate H].
  injection H as <- <-.
  exists rsaKey, cryptPK, verifyT, rnd1. cbn [pk.ID pk.Data app].
  rewrite <- !app_assoc.
  repeat split; try reflexivity; try assumption.
  apply response_payload_reads_back.
Qed.

(** The fixture's response under its 1024-bit RSA key. *)
Lemma genEncryptionKeyResponse_layout_witness :
  exists rsaKey cryptPK verifyT rnd1,
    Fixture.ParsePKIXPublicKey Fixture.rsaKeyDER = Ok (x509.RSA rsaKey)
    /\ Fixture.EncryptPKCS1v15 (Fixture.pool 400) rsaKey (repeat x00 16)
       = (Ok cryptPK, rnd1)
    /\ Fixture.EncryptPKCS1v15 rnd1 rsaKey [x01; x02; x03; x04]
       = (Ok verifyT, Fixture.poolAfterResponse)
    /\ pk.ID Fixture.responsePacket = x01
    /\ pk.Data Fixture.responsePacket
       = pk.PackVarInt (int32 (len cryptPK)) ++ cryptPK
         ++ pk.PackVarInt (int32 (len verifyT)) ++ verifyT
    /\ (len cryptPK < 2 ^ 31 -> len verifyT < 2 ^ 31 ->
        (let* n1 := pk.UnpackVarInt in
         let* b1 := pk.ReadNBytes n1 in
         let* n2 := pk.UnpackVarInt in
         let* b2 := pk.ReadNBytes n2 in
         pk.ret (b1, b2))%decoder (pk.Data Fixture.responsePacket)
        = Ok ((cryptPK, verifyT), [])).
Proof.
  apply (genEncryptionKeyResponse_layout
           (Fixture.platform Fixture.unreachable) (Fixture.pool 400)
           Fixture.poolAfterResponse (repeat x00 16) Fixture.rsaKeyDER
           [x01; x02; x03; x04] Fixture.responsePacket).
  vm_compute. reflexivity.
Defined.

(** ** [newSymmetricEncryption] *)

Lemma lxor_byte_small (a b : Z) :
  0 <= a < 256 -> 0 <= b < 256 -> (Z.lxor a b) mod 256 = Z.lxor a b.
Proof.
  intros Ha Hb. change 256 with (2 ^ 8) in *.
  rewrite <- Z.land_ones by lia.
  apply Z.bits_inj'. intros k Hk. rewrite Z.land_spec, Z.lxor_spec.
  destruct (Z.lt_ge_cases k 8) as [Hlt|Hge].
  - rewrite Z.ones_spec_low by lia. apply andb_true_r.
  - rewrite Z.ones_spec_high by lia. rewrite andb_false_r.
    rewrite <- (Z.mod_small a (2 ^ 8)), <- (Z.mod_small b (2 ^ 8)) by lia.
    now rewrite !Z.mod_pow2_bits_high by lia.
Qed.

Lemma xor_xor (x o : byte) : Bytes.xor (Bytes.xor x o) o = x.
Proof.
  unfold Bytes.xor. pose proof (to_Z_range x). pose proof (to_Z_range o).
  rewrite to_of_Z, lxor_byte_small by lia.
  rewrite Z.lxor_assoc, Z.lxor_nilpotent, Z.lxor_0_r. apply of_to_Z.
Qed.

(** One byte through a matched pair comes back, and the pair stays
    matched. *)
Lemma step_matched (e d : CFB8.stream) (x : byte) :
  Spec.matched e d ->
  fst (CFB8.step d (fst (CFB8.step e x))) = x
  /\ Spec.matched (snd (CFB8.step e x))
       (snd (CFB8.step d (fst (CFB8.step e x)))).
Proof.
  intros (Hb & Hr & He & Hd). unfold CFB8.step. cbn [fst snd].
  rewrite He, Hd, Hb, Hr. split; [apply xor_xor|].
  repeat split; cbn; auto.
Qed.

Lemma XORKeyStream_cons (s : CFB8.stream) (x : byte) (rest : list byte) :
  CFB8.XORKeyStream s (x :: rest)
  = (fst (CFB8.step s x)
       :: fst (CFB8.XORKeyStream (snd (CFB8.step s x)) rest),
     snd (CFB8.XORKeyStream (snd (CFB8.step s x)) rest)).
Proof.
  cbn [CFB8.XORKeyStream]. destruct (CFB8.step s x) as [y s'].
  cbn [fst snd]. now destruct (CFB8.XORKeyStream s' rest).
Qed.

(** Any byte sequence through a matched pair comes back, and the pair stays
    matched for the bytes that follow. *)
Lemma XORKeyStream_matched (data : list byte) (e d : CFB8.stream) :
  Spec.matched e d ->
  fst (CFB8.XORKeyStream d (fst (CFB8.XORKeyStream e data))) = data
  /\ Spec.matched (snd (CFB8.XORKeyStream e data))
       (snd (CFB8.XORKeyStream d (fst (CFB8.XORKeyStream e data)))).
Proof.
  revert e d. induction data as [|x data IH]; intros e d Hm.
  - cbn. auto.
  - rewrite XORKeyStream_cons. cbn [fst snd]. rewrite XORKeyStream_cons.
    cbn [fst snd].
    destruct (step_matched e d x Hm) as [Hx Hm'].
    destruct (IH _ _ Hm') as [Hd Hm''].
    rewrite Hx, Hd. auto.
Qed.

Lemma length_overwrite (dst src : list byte) :
  length (overwrite dst src) = length dst.
Proof.
  unfold overwrite. rewrite length_take, length_app, length_drop. lia.
Qed.

Lemma NewCipher_16 (P : Platform) (key : list byte) :
  length key = 16%nat ->
  aes.NewCipher P key
  = Ok {| aes.BlockSize := 16; aes.Encrypt := aes_Encrypt P key |}.
Proof. intros H. unfold aes.NewCipher. now rewrite H. Qed.

(** What [newSymmetricEncryption] returns, for every platform and every
    behaviour of the random source. *)
Lemma newSymmetricEncryption_returns (P : Platform) (rnd : Rand P) :
  let key := overwrite (repeat x00 16) (fst (fst (rand_Read P rnd 16))) in
  let b := {| aes.BlockSize := 16; aes.Encrypt := aes_Encrypt P key |} in
  newSymmetricEncryption P rnd
  = (Returned (key, CFB8.NewCFB8Encrypt b key, CFB8.NewCFB8Decrypt b key),
     snd (rand_Read P rnd 16)).
Proof.
  intros key b. unfold newSymmetricEncryption.
  change (length (repeat x00 16)) with 16%nat.
  destruct (rand_Read P rnd 16) as [[got err] rnd'] eqn:E.
  cbn [fst snd] in *. fold key.
  rewrite NewCipher_16; [reflexivity|].
  unfold key. now rewrite length_overwrite.
Qed.

(** C7. The pair of [newSymmetricEncryption] is a matched AES/CFB-8 pair:
    the key has 16 bytes, both streams are built over the AES block keyed by
    it with the key itself as the initialization vector, one encrypting and
    one decrypting. Every byte sequence, the empty one included, encrypted
    by the first stream and then decrypted by the second comes back
    unchanged, and the two streams are then matched again, so that the same
    holds for the sequences that follow. *)
Theorem newSymmetricEncryption_round_trip (P : Platform) (rnd : Rand P) :
  exists key encoStream decoStream rnd',
    newSymmetricEncryption P rnd
    = (Returned (key, encoStream, decoStream), rnd')
    /\ length key = 16%nat
    /\ encoStream
       = CFB8.NewCFB8Encrypt
           {| aes.BlockSize := 16; aes.Encrypt := aes_Encrypt P key |} key
    /\ decoStream
       = CFB8.NewCFB8Decrypt
           {| aes.BlockSize := 16; aes.Encrypt := aes_Encrypt P key |} key
    /\ Spec.matched encoStream decoStream
    /\ (forall e d, Spec.matched e d ->
        forall data,
          fst (CFB8.XORKeyStream d (fst (CFB8.XORKeyStream e data))) = data
          /\ Spec.matched (snd (CFB8.XORKeyStream e data))
               (snd (CFB8.XORKeyStream d (fst (CFB8.XORKeyStream e data)))))
    /\ (forall data,
          fst (CFB8.XORKeyStream decoStream
                 (fst (CFB8.XORKeyStream encoStream data))) = data).
Proof.
  pose proof (newSymmetricEncryption_returns P rnd) as H. cbv zeta in H.
  set (key := overwrite (repeat x00 16) (fst (fst (rand_Read P rnd 16)))) in *.
  set (b := {| aes.BlockSize := 16; aes.Encrypt := aes_Encrypt P key |}) in *.
  assert (Hm : Spec.matched (CFB8.NewCFB8Encrypt b key)
                 (CFB8.NewCFB8Decrypt b key)) by (repeat split).
  exists key, (CFB8.NewCFB8Encrypt b key), (CFB8.NewCFB8Decrypt b key),
    (snd (rand_Read P rnd 16)).
  split; [exact H|].
  split; [unfold key; now rewrite length_overwrite|].
  do 3 (split; [reflexivity || exact Hm|]).
  split.
  - intros e d Hed data. now apply XORKeyStream_matched.
  - intros data. now apply XORKeyStream_matched.
Qed.

(** C10. [newSymmetricEncryption] has no failure: for every platform and
    every behaviour of the random source it returns a key of exactly 16
    bytes and the two streams, and it does not panic. The error of the read
    of the random source is not looked at: the result is the same with and
    without it, the key being the 16 zero bytes overwritten with whatever
    bytes the read delivered (none at all, for a source that only fails). *)
Theorem newSymmetricEncryption_total (P : Platform) (rnd : Rand P) :
  (exists key encoStream decoStream rnd',
     newSymmetricEncryption P rnd
     = (Returned (key, encoStream, decoStream), rnd')
     /\ length key = 16%nat
     /\ aes.NewCipher P key
        = Ok {| aes.BlockSize := 16; aes.Encrypt := aes_Encrypt P key |})
  /\ (forall msg rnd', newSymmetricEncryption P rnd <> (Panicked msg, rnd'))
  /\ (forall e rnd', newSymmetricEncryption P rnd <> (Failed e, rnd'))
  /\ (forall got err rnd',
        rand_Read P rnd 16 = (got, err, rnd') ->
        exists encoStream decoStream,
          newSymmetricEncryption P rnd
          = (Returned (overwrite (repeat x00 16) got, encoStream, decoStream),
             rnd'))
  /\ (forall err rnd',
        rand_Read P rnd 16 = ([], Some err, rnd') ->
        exists encoStream decoStream,
          newSymmetricEncryption P rnd
          = (Returned (repeat x00 16, encoStream, decoStream), rnd')).
Proof.
  pose proof (newSymmetricEncryption_returns P rnd) as H. cbv zeta in H.
  split; [|split; [|split; [|split]]].
  - do 4 eexists. split; [exact H|].
    assert (Hl : length (overwrite (repeat x00 16)
                           (fst (fst (rand_Read P rnd 16)))) = 16%nat)
      by now rewrite length_overwrite.
    split; [exact Hl | now apply NewCipher_16].
  - intros msg rnd'. rewrite H. discriminate.
  - intros e rnd'. rewrite H. discriminate.
  - intros got err rnd' E. rewrite H, E. cbn [fst snd]. eauto.
  - intros err rnd' E. rewrite H, E. cbn [fst snd]. eauto.
Qed.

(** ** [loginAuth] *)

Lemma NewRequest_POST (url : string) (body : list byte) :
  http.NewRequest http.MethodPost url body
  = Ok {| http.Method := "POST"; http.URL := url;
          http.Header := ∅; http.Body := body |}.
Proof. reflexivity. Qed.

Lemma canonical_User_Agent :
  http.CanonicalMIMEHeaderKey "User-Agent" = "User-Agent"%string.
Proof. vm_compute. reflexivity. Qed.

Lemma canonical_Connection :
  http.CanonicalMIMEHeaderKey "Connection" = "Connection"%string.
Proof. vm_compute. reflexivity. Qed.

Lemma joinRequest_Header (P : Platform) (a n i d : string) :
  http.Header (Spec.joinRequest P a n i d)
  = <["Connection"%string := ["keep-alive"%string]]>
      (<["User-Agent"%string := ["gomcbot"%string]]> ∅).
Proof.
  cbn [Spec.joinRequest http.Header].
  apply map_eq. intros k.
  destruct (decide (k = "Connection"%string)) as [->|Hc];
    [|destruct (decide (k = "User-Agent"%string)) as [->|Hu]];
    now simplify_map_eq.
Qed.

(** [loginAuth] hands one request to [client.Do], the same whatever the
    answer, and its error depends on the answer alone. *)
Lemma loginAuth_unfold (P : Platform) (AsTk name UUID : string)
    (shareSecret : list byte) (er : encryptionRequest) :
  let req :=
    Spec.joinRequest P AsTk name UUID
      (authDigest (ServerID er) shareSecret (PublicKey er)) in
  loginAuth P AsTk name UUID shareSecret er
  = ([req],
     match http_Do P req with
     | Err err => Some ("post fail: " +:+ err)
     | Ok resp =>
         if String.eqb (http.Status resp) "204 No Content" then None
         else Some ("auth fail: "
                    +:+ Bytes.to_string (ioutil.content (http.RespBody resp)))
     end).
Proof.
  intros req. unfold loginAuth, jsonlib.Marshal.
  rewrite NewRequest_POST. unfold http.Header_Set.
  cbn [http.Method http.URL http.Header http.Body].
  rewrite canonical_User_Agent, canonical_Connection.
  assert (Hreq :
    {| http.Method := "POST"; http.URL := joinURL;
       http.Header := <["Connection"%string := ["keep-alive"%string]]>
                        (<["User-Agent"%string := ["gomcbot"%string]]> ∅);
       http.Body :=
         Bytes.of_string
           (json.encode (json_quote P)
              (request.toJSON
                 {| request.AccessToken := AsTk;
                    request.SelectedProfile :=
                      {| profile.ID := UUID; profile.Name := name |};
                    request.ServerID :=
                      authDigest (ServerID er) shareSecret (PublicKey er) |}))
    |} = req).
  { unfold req. rewrite <- (joinRequest_Header P AsTk name UUID
      (authDigest (ServerID er) shareSecret (PublicKey er))).
    reflexivity. }
  rewrite Hreq.
  destruct (http_Do P req) as [resp|err]; [|reflexivity].
  unfold ioutil.ReadAll, fmt.Errorf.
  now destruct (String.eqb (http.Status resp) "204 No Content").
Qed.

Lemma HasPrefix_append (prefix s : string) :
  strings.HasPrefix (prefix +:+ s) prefix = true.
Proof.
  induction prefix as [|c prefix IH]; [reflexivity|].
  rewrite append_String. cbn [strings.HasPrefix].
  now rewrite Ascii.eqb_refl, IH.
Qed.

Lemma kindOf_post_fail (e : string) :
  Spec.kindOf ("post fail: " +:+ e) = Some Spec.NetworkFailure.
Proof. unfold Spec.kindOf. now rewrite HasPrefix_append. Qed.

Lemma kindOf_auth_fail (b : string) :
  Spec.kindOf ("auth fail: " +:+ b) = Some Spec.AuthRejected.
Proof.
  unfold Spec.kindOf. rewrite HasPrefix_append.
  now rewrite append_String.
Qed.

(** C4, as the code behaves. [loginAuth] succeeds exactly when the transport
    delivered a response whose status line is ["204 No Content"]; the body
    of that response is read and not looked at, so it succeeds whatever the
    body holds. For any other status line it returns the error whose message
    is ["auth fail: "] followed by the bytes read from the body, as they
    are. *)
Theorem loginAuth_status_decides (P : Platform) (AsTk name UUID : string)
    (shareSecret : list byte) (er : encryptionRequest) :
  let req :=
    Spec.joinRequest P AsTk name UUID
      (authDigest (ServerID er) shareSecret (PublicKey er)) in
  (snd (loginAuth P AsTk name UUID shareSecret er) = None <->
   exists resp,
     http_Do P req = Ok resp /\ http.Status resp = "204 No Content"%string)
  /\ (forall resp,
        http_Do P req = Ok resp ->
        http.Status resp = "204 No Content"%string ->
        snd (loginAuth P AsTk name UUID shareSecret er) = None)
  /\ (forall resp,
        http_Do P req = Ok resp ->
        http.Status resp <> "204 No Content"%string ->
        snd (loginAuth P AsTk name UUID shareSecret er)
        = Some ("auth fail: "
                +:+ Bytes.to_string (ioutil.content (http.RespBody resp)))).
Proof.
  intros req. rewrite loginAuth_unfold. fold req. cbn [snd].
  split; [split|split].
  - destruct (http_Do P req) as [resp|err]; [|discriminate].
    destruct (String.eqb_spec (http.Status resp) "204 No Content");
      [eauto | discriminate].
  - intros (resp & -> & Hs). now rewrite Hs.
  - intros resp -> Hs. now rewrite Hs.
  - intros resp -> Hs.
    destruct (String.eqb_spec (http.Status resp) "204 No Content");
      [contradiction | reflexivity].
Qed.

(** The claim C4 as stated fails in both directions. A response with the
    status code 204, an empty body and another reason phrase than
    ["No Content"] in its status line makes [loginAuth] fail; a response
    with the status line ["204 No Content"] and a body that is not empty
    makes it succeed. *)
Lemma loginAuth_status_line_not_code :
  ~ ((forall req resp,
        Fixture.respond "204 OK" 204 EmptyString req = Ok resp ->
        http.StatusCode resp = 204
        /\ ioutil.content (http.RespBody resp) = []) ->
     snd (loginAuth
            (Fixture.platform (Fixture.respond "204 OK" 204 EmptyString))
            "token" "Notch" "uuid" (repeat x00 16)
            {| ServerID := "-"; PublicKey := []; VerifyToken := [] |})
     = None)
  /\ ~ (snd (loginAuth
               (Fixture.platform
                  (Fixture.respond "204 No Content" 204 "unexpected"))
               "token" "Notch" "uuid" (repeat x00 16)
               {| ServerID := "-"; PublicKey := []; VerifyToken := [] |})
        = None ->
        exists req resp,
          Fixture.respond "204 No Content" 204 "unexpected" req = Ok resp
          /\ http.StatusCode resp = 204
          /\ ioutil.content (http.RespBody resp) = []).
Proof.
  split.
  - intros H. rewrite loginAuth_unfold in H. cbn in H.
    enough (Some ("auth fail: " +:+ EmptyString) = @None string)
      by discriminate.
    apply H. intros req resp Hr. injection Hr as <-. split; reflexivity.
  - intros H. destruct H as (req & resp & Hdo & _ & Hbody).
    + rewrite loginAuth_unfold. reflexivity.
    + injection Hdo as <-. discriminate Hbody.
Qed.

(** C5, as the code behaves. The failures of [loginAuth] are of two kinds
    that the error returned tells apart by the prefix of its message, and by
    nothing else: a failure of the transport gives the message
    ["post fail: "] followed by the transport's error, a response with
    another status line than ["204 No Content"], whatever its status code,
    gives the message ["auth fail: "] followed by the body; every failure is
    of exactly one of the two kinds, and no message of one kind is a message
    of the other. *)
Theorem loginAuth_failure_kinds (P : Platform) (AsTk name UUID : string)
    (shareSecret : list byte) (er : encryptionRequest) :
  let req :=
    Spec.joinRequest P AsTk name UUID
      (authDigest (ServerID er) shareSecret (PublicKey er)) in
  (forall e,
     http_Do P req = Err e ->
     snd (loginAuth P AsTk name UUID shareSecret er)
     = Some ("post fail: " +:+ e)
     /\ Spec.kindOf ("post fail: " +:+ e) = Some Spec.NetworkFailure)
  /\ (forall resp,
        http_Do P req = Ok resp ->
        http.Status resp <> "204 No Content"%string ->
        exists m,
          snd (loginAuth P AsTk name UUID shareSecret er) = Some m
          /\ Spec.kindOf m = Some Spec.AuthRejected)
  /\ (forall m,
        snd (loginAuth P AsTk name UUID shareSecret er) = Some m ->
        (Spec.kindOf m = Some Spec.NetworkFailure
         /\ exists e, http_Do P req = Err e)
        \/ (Spec.kindOf m = Some Spec.AuthRejected
            /\ exists resp,
                 http_Do P req = Ok resp
                 /\ http.Status resp <> "204 No Content"%string))
  /\ (forall e b, "post fail: " +:+ e <> "auth fail: " +:+ b).
Proof.
  intros req. rewrite loginAuth_unfold. fold req. cbn [snd].
  split; [|split; [|split]].
  - intros e ->. split; [reflexivity | apply kindOf_post_fail].
  - intros resp -> Hs.
    destruct (String.eqb_spec (http.Status resp) "204 No Content");
      [contradiction|].
    eexists. split; [reflexivity | apply kindOf_auth_fail].
  - intros m Hm. destruct (http_Do P req) as [resp|err].
    + destruct (String.eqb_spec (http.Status resp) "204 No Content");
        [discriminate Hm|].
      injection Hm as <-. right. split; [apply kindOf_auth_fail | eauto].
    + injection Hm as <-. left. split; [apply kindOf_post_fail | eauto].
  - intros e b H. rewrite !append_String in H. discriminate H.
Qed.

(** The claim C5 as stated fails: it attributes every failure that is not a
    failure of the transport to a status other than 204.  A response that
    the transport delivers with the status code 204, an empty body and the
    status line ["204 OK"] makes [loginAuth] fail with a message of the
    kind [AuthRejected], although the transport did not fail and the status
    is 204. *)
Lemma loginAuth_auth_rejected_under_204 :
  ~ (forall m,
       snd (loginAuth
              (Fixture.platform (Fixture.respond "204 OK" 204 EmptyString))
              "token" "Notch" "uuid" (repeat x00 16)
              {| ServerID := "-"; PublicKey := []; VerifyToken := [] |})
       = Some m ->
       (Spec.kindOf m = Some Spec.NetworkFailure
        /\ exists req e,
             Fixture.respond "204 OK" 204 EmptyString req = Err e)
       \/ (Spec.kindOf m = Some Spec.AuthRejected
           /\ exists req resp,
                Fixture.respond "204 OK" 204 EmptyString req = Ok resp
                /\ http.StatusCode resp <> 204)).
Proof.
  intros H.
  destruct (H ("auth fail: " +:+ EmptyString)) as
    [[_ (req & e & He)]|[_ (req & resp & Hr & Hc)]].
  - rewrite loginAuth_unfold. reflexivity.
  - discriminate He.
  - injection Hr as <-. apply Hc. reflexivity.
Qed.

(** C8, as the code behaves. [loginAuth] hands exactly one request to
    [client.Do]: a POST to the session-join endpoint whose body is the JSON
    object with [accessToken], [selectedProfile] (an object with [id] and
    [name]) and [serverId], the latter being the digest; its headers are
    [User-Agent: gomcbot] and [Connection: keep-alive] and no other, so the
    code sets no [Content-Type]. *)
Theorem loginAuth_join_request (P : Platform) (AsTk name UUID : string)
    (shareSecret : list byte) (er : encryptionRequest) :
  let digest := authDigest (ServerID er) shareSecret (PublicKey er) in
  exists req,
    fst (loginAuth P AsTk name UUID shareSecret er) = [req]
    /\ req = Spec.joinRequest P AsTk name UUID digest
    /\ http.Method req = "POST"%string
    /\ http.URL req
       = "https://sessionserver.mojang.com/session/minecraft/join"%string
    /\ http.Body req
       = Bytes.of_string
           (json.encode (json_quote P)
              (json.Object
                 [("accessToken"%string, json.Str AsTk);
                  ("selectedProfile"%string,
                   json.Object [("id"%string, json.Str UUID);
                                ("name"%string, json.Str name)]);
                  ("serverId"%string, json.Str digest)]))
    /\ http.Header req !! "User-Agent"%string = Some ["gomcbot"%string]
    /\ http.Header req !! "Connection"%string = Some ["keep-alive"%string]
    /\ (forall k,
          k <> "User-Agent"%string -> k <> "Connection"%string ->
          http.Header req !! k = None)
    /\ http.Header req !! "Content-Type"%string = None.
Proof.
  intros digest. rewrite loginAuth_unfold. cbn [fst].
  eexists. split; [reflexivity|]. split; [reflexivity|].
  do 3 (split; [reflexivity|]).
  rewrite joinRequest_Header.
  split; [|split; [|split]].
  - now simplify_map_eq.
  - now simplify_map_eq.
  - intros k Hu Hc. now simplify_map_eq.
  - now simplify_map_eq.
Qed.

(** The claim C8 as stated fails: the request carries no [Content-Type]
    header. *)
Lemma loginAuth_request_without_Content_Type :
  ~ (exists req,
       fst (loginAuth
              (Fixture.platform (Fixture.respond "204 No Content" 204 EmptyString))
              "token" "Notch" "uuid" (repeat x00 16)
              {| ServerID := "-"; PublicKey := []; VerifyToken := [] |})
       = [req]
       /\ http.Header req !! "Content-Type"%string
          = Some ["application/json"%string]).
Proof.
  intros (req & H & Hc). rewrite loginAuth_unfold in H. cbn [fst] in H.
  injection H as <-. rewrite joinRequest_Header in Hc.
  now simplify_map_eq.
Qed.

(** ** Examples *)

(** The published vectors of the digest scheme. *)
Example authDigest_Notch :
  authDigest "Notch" [] [] = "4ed1f46bbe04bc756bcb17c0c7ce3e4632f06a48"%string.
Proof. vm_compute. reflexivity. Qed.

Example authDigest_jeb :
  authDigest "jeb_" [] []
  = "-7c9d5b0044c130109a5d7b5fb5c317c02b4e28c1"%string.
Proof. vm_compute. reflexivity. Qed.

Example authDigest_simon :
  authDigest "simon" [] [] = "88e16a1019277b15d58faf0541e11910eb756f6"%string.
Proof. vm_compute. reflexivity. Qed.

(** The three inputs are hashed one after the other. *)
Example authDigest_concatenates :
  authDigest "No" (Bytes.of_string "t") (Bytes.of_string "ch")
  = authDigest "Notch" [] [].
Proof. vm_compute. reflexivity. Qed.

Example sha1_abc :
  fmt.Sprintf_x (sha1.Sum (Bytes.of_string "abc"))
  = "a9993e364706816aba3e25717850c26c9cd0d89d"%string.
Proof. vm_compute. reflexivity. Qed.

Example sha1_two_blocks :
  fmt.Sprintf_x
    (sha1.Sum
       (Bytes.of_string
          "abcdbcdecdefdefgefghfghighijhijkijkljklmklmnlmnomnopnopq"))
  = "84983e441c3bd26ebaae4aa1f95129e5e54670f1"%string.
Proof. vm_compute. reflexivity. Qed.

Example twosComplement_carry :
  twosComplement [x01; x00; x00] = [xff; x00; x00].
Proof. reflexivity. Qed.

Example signedHex_min : signedHex [x80; x00] = "-8000"%string.
Proof. reflexivity. Qed.

Example signedHex_leading_zeros : signedHex [x00; x0a; xbc] = "abc"%string.
Proof. reflexivity. Qed.

Example PackVarInt_300 : pk.PackVarInt 300 = [xac; x02].
Proof. reflexivity. Qed.

Example PackVarInt_minus_one :
  pk.PackVarInt (-1) = [xff; xff; xff; xff; x0f].
Proof. reflexivity. Qed.

Example unpack_request :
  unpackEncryptionRequest
    {| pk.ID := x01;
       pk.Data := pk.PackString "srv" ++ pk.PackVarInt 2 ++ [x01; x02]
                  ++ pk.PackVarInt 1 ++ [x09] |}
  = Ok {| ServerID := "srv"; PublicKey := [x01; x02]; VerifyToken := [x09] |}.
Proof. reflexivity. Qed.

(** A public-key length of 9999 in a payload of ten bytes. *)
Example unpack_overrun :
  unpackEncryptionRequest
    {| pk.ID := x01;
       pk.Data := pk.PackString EmptyString ++ pk.PackVarInt 9999
                  ++ [x01; x02; x03; x04; x05; x06; x07] |}
  = Err pk.MalformedPacket.
Proof. reflexivity. Qed.

Example unpack_invalid_utf8 :
  unpackEncryptionRequest
    {| pk.ID := x01;
       pk.Data := [x02; xc0; x80] ++ pk.PackVarInt 0 ++ pk.PackVarInt 0 |}
  = Err pk.MalformedPacket.
Proof. reflexivity. Qed.

Example unpack_empty_payload :
  unpackEncryptionRequest {| pk.ID := x01; pk.Data := [] |}
  = Err pk.MalformedPacket.
Proof. reflexivity. Qed.

Example handshake_packet :
  newHandshakePacket 340 "localhost" 25565 x02
  = {| pk.ID := x00;
       pk.Data := [xd4; x02; x09] ++ Bytes.of_string "localhost"
                  ++ [x63; xdd; x02] |}.
Proof. reflexivity. Qed.

Example login_start_packet :
  newLoginStartPacket "Notch"
  = {| pk.ID := x00; pk.Data := x05 :: Bytes.of_string "Notch" |}.
Proof. reflexivity. Qed.

(** A random source that only fails: the key is sixteen zero bytes. *)
Example symmetric_encryption_without_entropy :
  match newSymmetricEncryption (Fixture.platform Fixture.unreachable) [] with
  | (Returned (key, _, _), _) => key = repeat x00 16
  | _ => False
  end.
Proof. reflexivity. Qed.

Example cfb8_round_trip :
  match newSymmetricEncryption (Fixture.platform Fixture.unreachable)
          (Fixture.pool 16) with
  | (Returned (_, enco, deco), _) =>
      forallb
        (fun data =>
           bool_decide
             (fst (CFB8.XORKeyStream deco (fst (CFB8.XORKeyStream enco data)))
              = data))
        [[]; [x2a]; Fixture.pool 16; Fixture.pool 100] = true
  | _ => False
  end.
Proof. vm_compute. reflexivity. Qed.

(** The stub identity service: 204, 403 with a body, no connection. *)
Example join_accepted :
  snd (loginAuth (Fixture.platform (Fixture.respond "204 No Content" 204 EmptyString))
         "token" "Notch" "uuid" (repeat x00 16)
         {| ServerID := "-"; PublicKey := []; VerifyToken := [] |})
  = None.
Proof. vm_compute. reflexivity. Qed.

Example join_rejected :
  snd (loginAuth
         (Fixture.platform (Fixture.respond "403 Forbidden" 403 "{bad}"))
         "token" "Notch" "uuid" (repeat x00 16)
         {| ServerID := "-"; PublicKey := []; VerifyToken := [] |})
  = Some "auth fail: {bad}"%string.
Proof. vm_compute. reflexivity. Qed.

Example join_unreachable :
  snd (loginAuth (Fixture.platform Fixture.unreachable)
         "token" "Notch" "uuid" (repeat x00 16)
         {| ServerID := "-"; PublicKey := []; VerifyToken := [] |})
  = Some "post fail: dial tcp: connection refused"%string.
Proof. vm_compute. reflexivity. Qed.

(** A status line with the code 204 and another reason phrase is a
    failure. *)
Example join_other_reason_phrase :
  snd (loginAuth (Fixture.platform (Fixture.respond "204 OK" 204 EmptyString))
         "token" "Notch" "uuid" (repeat x00 16)
         {| ServerID := "-"; PublicKey := []; VerifyToken := [] |})
  = Some "auth fail: "%string.
Proof. vm_compute. reflexivity. Qed.

(** The ciphertexts of the fixture's response have the length of the
    modulus. *)
Example response_lengths :
  length (pk.Data Fixture.responsePacket) = (2 + 128 + 2 + 128)%nat.
Proof. reflexivity. Qed.

(** * Further properties of [login.go] *)

(** ** [twosComplement] on slices of any length *)

Lemma be_value_inj (p q : list byte) :
  length p = length q -> Bytes.be_value p = Bytes.be_value q -> p = q.
Proof.
  revert q. induction p as [|b p IH]; intros [|c q] Hl Hv;
    try discriminate Hl; [reflexivity|].
  injection Hl as Hl. rewrite !be_value_cons in Hv.
  assert (Hlen : len q = len p) by (unfold len; lia).
  rewrite Hlen in Hv.
  pose proof (be_value_bound p) as Hp. pose proof (be_value_bound q) as Hq.
  rewrite Hlen in Hq.
  pose proof (to_Z_range b) as Hb. pose proof (to_Z_range c) as Hc.
  set (m := 256 ^ len p) in *.
  assert (Hbc : Bytes.to_Z b = Bytes.to_Z c) by nia.
  rewrite (to_Z_inj _ _ Hbc). f_equal. apply IH; [exact Hl | nia].
Qed.

Lemma length_twosComplement (p : list byte) :
  length (twosComplement p) = length p.
Proof.
  rewrite twosComplement_negate. unfold Spec.negate.
  pose proof (len_plusOne (Spec.invert p)) as H. rewrite len_invert in H.
  unfold len in H. lia.
Qed.

Lemma neg_neg_mod (v m : Z) : 0 <= v < m -> (- ((- v) mod m)) mod m = v.
Proof.
  intros H. destruct (Z.eq_dec v 0) as [->|Hv].
  - change (- 0) with 0. rewrite Z.mod_0_l by lia. reflexivity.
  - replace (- v) with (m - v + (-1) * m) by lia.
    rewrite Z.mod_add, (Z.mod_small (m - v)) by lia.
    replace (- (m - v)) with (v + (-1) * m) by lia.
    now rewrite Z.mod_add, Z.mod_small by lia.
Qed.

Lemma twosComplement_twice (p : list byte) :
  twosComplement (twosComplement p) = p.
Proof.
  apply be_value_inj.
  - now rewrite !length_twosComplement.
  - rewrite !be_value_twosComplement.
    assert (Hl : len (twosComplement p) = len p)
      by (unfold len; now rewrite length_twosComplement).
    rewrite Hl. apply neg_neg_mod, be_value_bound.
Qed.

(** X1. [twosComplement] keeps the length of the slice it rewrites and is
    its own inverse: negating twice gives the bytes back, for a slice of any
    length. *)
Theorem twosComplement_involutive (p : list byte) :
  length (twosComplement p) = length p
  /\ twosComplement (twosComplement p) = p.
Proof.
  split; [apply length_twosComplement | apply twosComplement_twice].
Qed.

(** X2. Read as big-endian numbers, [twosComplement] maps the value [v] of
    a slice of [n] bytes to [256 ^ n - v], except that zero stays zero: the
    carry out of the first byte is dropped. *)
Theorem twosComplement_value (p : list byte) :
  Bytes.be_value (twosComplement p)
  = (if Bytes.be_value p =? 0 then 0 else 256 ^ len p - Bytes.be_value p)
  /\ 0 <= Bytes.be_value (twosComplement p) < 256 ^ len p.
Proof.
  pose proof (be_value_bound p) as Hp.
  rewrite be_value_twosComplement. split.
  - destruct (Z.eqb_spec (Bytes.be_value p) 0) as [->|Hv].
    + cbn. apply Z.mod_0_l. lia.
    + replace (- Bytes.be_value p)
        with (256 ^ len p - Bytes.be_value p + (-1) * 256 ^ len p) by lia.
      now rewrite Z.mod_add, Z.mod_small by lia.
  - apply Z.mod_pos_bound. lia.
Qed.

(** X3. The slices that [twosComplement] leaves as they are are the zero
    slice and the slice of the smallest negative number, [0x80 0x00 ...]:
    the values [v] with [v = 0] or [2 * v = 256 ^ n]. *)
Theorem twosComplement_fixed_points (p : list byte) :
  twosComplement p = p <->
  Bytes.be_value p = 0 \/ 2 * Bytes.be_value p = 256 ^ len p.
Proof.
  pose proof (be_value_bound p) as Hp.
  assert (Hv : Bytes.be_value (twosComplement p)
               = if Bytes.be_value p =? 0 then 0
                 else 256 ^ len p - Bytes.be_value p).
  { rewrite be_value_twosComplement.
    destruct (Z.eqb_spec (Bytes.be_value p) 0) as [->|Hne].
    - cbn. apply Z.mod_0_l. lia.
    - replace (- Bytes.be_value p)
        with (256 ^ len p - Bytes.be_value p + (-1) * 256 ^ len p) by lia.
      now rewrite Z.mod_add, Z.mod_small by lia. }
  split.
  - intros E. rewrite E in Hv.
    destruct (Z.eqb_spec (Bytes.be_value p) 0); lia.
  - intros H. apply be_value_inj; [apply length_twosComplement|].
    rewrite Hv. destruct (Z.eqb_spec (Bytes.be_value p) 0); lia.
Qed.

Example twosComplement_min : twosComplement [x80; x00] = [x80; x00].
Proof. reflexivity. Qed.

Example twosComplement_zero : twosComplement [x00; x00] = [x00; x00].
Proof. reflexivity. Qed.

(** ** The text of [authDigest] *)

Lemma authDigest_signedHex
    (serverID : string) (sharedSecret publicKey : list byte) :
  authDigest serverID sharedSecret publicKey
  = signedHex (sha1.Sum (Bytes.of_string serverID ++ sharedSecret ++ publicKey)).
Proof.
  unfold authDigest, sha1.Write, sha1.New. now rewrite app_nil_l, <- app_assoc.
Qed.

Lemma sha1_Sum_nonempty (m : list byte) : sha1.Sum m <> [].
Proof.
  intros E. pose proof (length_sha1_Sum m) as Hl. rewrite E in Hl. discriminate.
Qed.

Lemma hexValue_minus (m : string) : Spec.hexValue ("-" +:+ m) = None.
Proof. reflexivity. Qed.

Lemma signedValue_be_value (d : list byte) :
  Bytes.be_value d = Spec.signedValue d mod 256 ^ len d.
Proof.
  unfold Spec.signedValue. rewrite pow_256_len.
  pose proof (be_value_bound d) as Hv.
  destruct (2 ^ (8 * len d - 1) <=? Bytes.be_value d).
  - replace (Bytes.be_value d - 256 ^ len d)
      with (Bytes.be_value d + (-1) * 256 ^ len d) by lia.
    now rewrite Z.mod_add, Z.mod_small by lia.
  - now rewrite Z.mod_small by lia.
Qed.

Lemma signedHex_inj (d1 d2 : list byte) :
  d1 <> [] -> length d1 = length d2 -> signedHex d1 = signedHex d2 -> d1 = d2.
Proof.
  intros Hne Hl E.
  assert (Hne2 : d2 <> []) by (intros ->; destruct d1; [congruence | discriminate]).
  destruct (signedHex_magnitude d1 Hne) as (m1 & E1 & V1 & _).
  destruct (signedHex_magnitude d2 Hne2) as (m2 & E2 & V2 & _).
  rewrite E1, E2 in E.
  assert (Hs : Spec.signedValue d1 = Spec.signedValue d2).
  { destruct (Z.ltb_spec (Spec.signedValue d1) 0),
             (Z.ltb_spec (Spec.signedValue d2) 0).
    - rewrite !append_String, !append_empty in E. injection E as E. subst m2.
      rewrite V1 in V2. injection V2. lia.
    - subst m2. rewrite hexValue_minus in V2. discriminate.
    - subst m1. rewrite hexValue_minus in V1. discriminate.
    - subst m2. rewrite V1 in V2. injection V2. lia. }
  apply be_value_inj; [exact Hl|].
  rewrite !signedValue_be_value, Hs. unfold len. now rewrite Hl.
Qed.

(** X4. The text identifies the digest: two calls of [authDigest] return the
    same string exactly when the SHA-1 digests of their concatenated inputs
    are the same 20 bytes.  Trimming the zeros and moving the sign in front
    loses nothing. *)
Theorem authDigest_identifies_digest
    (s s' : string) (k p k' p' : list byte) :
  authDigest s k p = authDigest s' k' p' <->
  sha1.Sum (Bytes.of_string s ++ k ++ p)
  = sha1.Sum (Bytes.of_string s' ++ k' ++ p').
Proof.
  rewrite !authDigest_signedHex. split.
  - apply signedHex_inj; [apply sha1_Sum_nonempty|].
    now rewrite !length_sha1_Sum.
  - now intros ->.
Qed.

Lemma length_Sprintf_x (p : list byte) :
  String.length (fmt.Sprintf_x p) = (2 * length p)%nat.
Proof.
  induction p as [|b p IH]; [reflexivity|].
  cbn [fmt.Sprintf_x]. unfold fmt.hex_byte.
  rewrite !append_String, append_empty. cbn [String.length length].
  rewrite IH. lia.
Qed.

Lemma TrimLeft_String (c : ascii) (r cutset : string) :
  strings.TrimLeft (String c r) cutset
  = if strings.contains cutset c then strings.TrimLeft r cutset
    else String c r.
Proof. reflexivity. Qed.

Lemma length_TrimLeft (s cutset : string) :
  (String.length (strings.TrimLeft s cutset) <= String.length s)%nat.
Proof.
  induction s as [|c s IH]; [reflexivity|].
  rewrite TrimLeft_String. destruct (strings.contains cutset c);
    cbn [String.length]; lia.
Qed.

(** X5. The string returned by [authDigest] has at most 41 characters, the
    sign included, and is never the bare sign: a negative digest is followed
    by at least one digit. *)
Theorem authDigest_length (s : string) (k p : list byte) :
  (String.length (authDigest s k p) <= 41)%nat
  /\ authDigest s k p <> "-"%string.
Proof.
  rewrite authDigest_signedHex.
  set (d := sha1.Sum (Bytes.of_string s ++ k ++ p)).
  assert (Hl : length d = 20%nat) by apply length_sha1_Sum.
  split.
  - unfold signedHex.
    destruct (Z.land (Bytes.to_Z (d !!! 0%nat)) 128 =? 128).
    + rewrite append_String, append_empty. cbn [String.length].
      pose proof (length_TrimLeft (fmt.Sprintf_x (twosComplement d)) "0") as Ht.
      rewrite length_Sprintf_x, length_twosComplement, Hl in Ht. lia.
    + pose proof (length_TrimLeft (fmt.Sprintf_x d) "0") as Ht.
      rewrite length_Sprintf_x, Hl in Ht. lia.
  - destruct (signedHex_magnitude d (sha1_Sum_nonempty _)) as (m & E & V & _).
    rewrite E. destruct (Z.ltb_spec (Spec.signedValue d) 0) as [Hneg|Hpos].
    + intros Em. rewrite append_String, append_empty in Em.
      injection Em as ->. cbn in V. injection V. lia.
    + intros ->. discriminate V.
Qed.

Lemma signedHex_plain_hex (d : list byte) :
  d <> [] ->
  signedHex d = fmt.Sprintf_x d <-> 16 <= Bytes.to_Z (d !!! 0%nat) < 128.
Proof.
  destruct d as [|b d]; [contradiction|]. intros _.
  unfold signedHex. change ((b :: d) !!! 0%nat) with b.
  rewrite negative_highBit, highBit_ge.
  pose proof (to_Z_range b) as Hb.
  assert (Hq : 0 <= Bytes.to_Z b / 16 < 16)
    by (split; [apply Z.div_pos | apply Z.div_lt_upper_bound]; lia).
  destruct (Z.leb_spec 128 (Bytes.to_Z b)) as [Hn|Hn].
  - split; [|lia]. cbn [fmt.Sprintf_x]. unfold fmt.hex_byte.
    rewrite !append_String, append_empty.
    intros E. injection E as Ec _.
    pose proof (digitValue_hexdigit _ Hq) as Hd. rewrite <- Ec in Hd.
    discriminate Hd.
  - cbn [fmt.Sprintf_x]. unfold fmt.hex_byte.
    rewrite !append_String, append_empty.
    rewrite TrimLeft_String, (hexdigit_is_zero _ Hq).
    destruct (Z.eqb_spec (Bytes.to_Z b / 16) 0) as [Hz|Hz].
    + split.
      * intros E. apply (f_equal String.length) in E.
        match type of E with
        | String.length (strings.TrimLeft ?x ?c) = _ =>
            pose proof (length_TrimLeft x c) as Ht
        end.
        rewrite E in Ht. cbn [String.length] in Ht. lia.
      * intros H. assert (1 <= Bytes.to_Z b / 16)
          by (apply Z.div_le_lower_bound; lia). lia.
    + split; [|reflexivity]. intros _.
      destruct (Z.lt_ge_cases (Bytes.to_Z b) 16) as [Hs|Hs]; [|lia].
      rewrite Z.div_small in Hz by lia. contradiction.
Qed.

(** X16. Negation shows in the text as the sign and nothing else: for a
    slice that reads as a positive number, the rendering of its two's
    complement is the rendering of the slice with [-] in front. *)
Theorem signedHex_twosComplement (d : list byte) :
  0 < Spec.signedValue d ->
  signedHex (twosComplement d) = "-" +:+ signedHex d.
Proof.
  intros Hpos.
  assert (Hne : d <> []) by (intros ->; vm_compute in Hpos; discriminate).
  assert (Hl : len (twosComplement d) = len d)
    by (unfold len; now rewrite length_twosComplement).
  assert (Hne' : twosComplement d <> []).
  { intros E. apply (f_equal length) in E.
    rewrite length_twosComplement in E. destruct d; [congruence|discriminate]. }
  assert (Hd : (Spec.signedValue d <? 0) = false) by (apply Z.ltb_ge; lia).
  assert (Ht : (Spec.signedValue (twosComplement d) <? 0) = true).
  { apply Z.ltb_lt. unfold Spec.signedValue in *.
    rewrite Hl, be_value_twosComplement. rewrite pow_256_len in *.
    pose proof (be_value_bound d) as Hv.
    assert (H1 : 1 <= len d)
      by (destruct d; [contradiction | unfold len; cbn [length]; lia]).
    assert (H2 : 256 ^ len d = 2 * 2 ^ (8 * len d - 1)).
    { rewrite <- pow_256_len, <- Z.pow_succ_r by lia. f_equal. lia. }
    destruct (Z.leb_spec (2 ^ (8 * len d - 1)) (Bytes.be_value d)); [lia|].
    replace (- Bytes.be_value d)
      with (256 ^ len d - Bytes.be_value d + (-1) * 256 ^ len d) by lia.
    rewrite Z.mod_add, Z.mod_small by lia.
    destruct (Z.leb_spec (2 ^ (8 * len d - 1))
                (256 ^ len d - Bytes.be_value d)); lia. }
  unfold signedHex.
  rewrite !signedHex_negative, !highBit_signedValue by assumption.
  rewrite Hd, Ht. now rewrite twosComplement_twice.
Qed.

Lemma signedHex_twosComplement_witness :
  signedHex (twosComplement [x01; x2c]) = "-" +:+ signedHex [x01; x2c].
Proof.
  apply (signedHex_twosComplement [x01; x2c]). vm_compute. reflexivity.
Defined.

(** X6. [authDigest] returns the ordinary 40-digit hexadecimal SHA-1 digest
    exactly when the first digest byte lies between [0x10] and [0x7f]; in
    every other case the text differs from it, by a sign or by dropped
    leading zeros. *)
Theorem authDigest_plain_hex (s : string) (k p : list byte) :
  let d := sha1.Sum (Bytes.of_string s ++ k ++ p) in
  authDigest s k p = fmt.Sprintf_x d
  <-> 16 <= Bytes.to_Z (d !!! 0%nat) < 128.
Proof.
  intros d. rewrite authDigest_signedHex.
  apply signedHex_plain_hex, sha1_Sum_nonempty.
Qed.

(** ** More on [unpackEncryptionRequest] *)

Lemma unpackEncryptionRequest_round_trip_witness :
  unpackEncryptionRequest
    {| pk.ID := x01;
       pk.Data := pk.PackString "srv"
                  ++ pk.PackVarInt (int32 (len [x30; x82]))
                  ++ [x30; x82]
                  ++ pk.PackVarInt (int32 (len [x09; x0a; x0b; x0c]))
                  ++ [x09; x0a; x0b; x0c] ++ [xde; xad] |}
  = Ok {| ServerID := "srv"; PublicKey := [x30; x82];
          VerifyToken := [x09; x0a; x0b; x0c] |}.
Proof.
  apply (unpackEncryptionRequest_round_trip
           {| ServerID := "srv"; PublicKey := [x30; x82];
              VerifyToken := [x09; x0a; x0b; x0c] |} x01 [xde; xad]).
  - reflexivity.
  - vm_compute. reflexivity.
  - vm_compute. reflexivity.
  - vm_compute. reflexivity.
Defined.

Lemma isVarInt_nonempty (l : list byte) (n : Z) : Spec.isVarInt l n -> l <> [].
Proof. intros H ->. specialize (H []). discriminate H. Qed.

(** X8. [unpackEncryptionRequest] looks neither at the packet ID nor at
    what follows the verify token: a payload it accepts is accepted with the
    same result under any ID and with any bytes appended. *)
Theorem unpackEncryptionRequest_ignores_id_and_tail
    (p : pk.Packet) (er : encryptionRequest) (id : byte) (extra : list byte) :
  unpackEncryptionRequest p = Ok er ->
  unpackEncryptionRequest {| pk.ID := id; pk.Data := pk.Data p ++ extra |}
  = Ok er.
Proof.
  intros H. apply unpackEncryptionRequest_Ok in H
    as (l1 & l2 & l3 & rest & E & H1 & Hv & H2 & H3).
  apply unpackEncryptionRequest_Ok.
  exists l1, l2, l3, (rest ++ extra). cbn [pk.Data]. rewrite E.
  rewrite <- !app_assoc. auto.
Qed.

Lemma unpackEncryptionRequest_ignores_id_and_tail_witness :
  unpackEncryptionRequest
    {| pk.ID := xff;
       pk.Data := ([x03] ++ Bytes.of_string "srv" ++ [x02; x30; x82]
                   ++ [x01; x09]) ++ [xde; xad; xbe; xef] |}
  = Ok {| ServerID := "srv"; PublicKey := [x30; x82]; VerifyToken := [x09] |}.
Proof.
  apply (unpackEncryptionRequest_ignores_id_and_tail
           {| pk.ID := x01;
              pk.Data := [x03] ++ Bytes.of_string "srv" ++ [x02; x30; x82]
                         ++ [x01; x09] |}
           {| ServerID := "srv"; PublicKey := [x30; x82];
              VerifyToken := [x09] |} xff [xde; xad; xbe; xef]).
  reflexivity.
Defined.

(** X9. The three fields of an accepted request fit in the payload they
    were read from: their byte counts and one byte at least for each of the
    three length prefixes add up to no more than the payload length.  A
    payload of fewer than three bytes is never accepted. *)
Theorem unpackEncryptionRequest_fields_fit
    (p : pk.Packet) (er : encryptionRequest) :
  unpackEncryptionRequest p = Ok er ->
  len (Bytes.of_string (ServerID er)) + len (PublicKey er)
  + len (VerifyToken er) + 3 <= len (pk.Data p).
Proof.
  intros H. apply unpackEncryptionRequest_Ok in H
    as (l1 & l2 & l3 & rest & E & H1 & _ & H2 & H3).
  apply isVarInt_nonempty in H1, H2, H3. rewrite E. unfold len.
  rewrite !length_app.
  destruct l1, l2, l3; try contradiction. cbn [length]. lia.
Qed.

Lemma unpackEncryptionRequest_fields_fit_witness :
  len (Bytes.of_string "srv") + len [x30; x82] + len [x09] + 3
  <= len ([x03] ++ Bytes.of_string "srv" ++ [x02; x30; x82] ++ [x01; x09]).
Proof.
  apply (unpackEncryptionRequest_fields_fit
           {| pk.ID := x01;
              pk.Data := [x03] ++ Bytes.of_string "srv" ++ [x02; x30; x82]
                         ++ [x01; x09] |}
           {| ServerID := "srv"; PublicKey := [x30; x82];
              VerifyToken := [x09] |}).
  reflexivity.
Defined.

(** ** The failures of [genEncryptionKeyResponse] *)

(** X10. [genEncryptionKeyResponse] returns an error in three cases and no
    other: the server key does not decode (the random source is then left
    untouched), the encryption of the shared secret fails (the verify token
    is then not encrypted: the random source is as the first encryption left
    it), or the encryption of the verify token fails.  The message names the
    step and carries the cause. *)
Theorem genEncryptionKeyResponse_failures (P : Platform) (rnd rnd' : Rand P)
    (shareSecret publicKey verifyToken : list byte) (e : error) :
  genEncryptionKeyResponse P rnd shareSecret publicKey verifyToken
  = (Failed e, rnd')
  <->
  (exists err,
     x509_ParsePKIXPublicKey P publicKey = Err err
     /\ e = "decode public key fail: " +:+ err /\ rnd' = rnd)
  \/ (exists rsaKey err,
        x509_ParsePKIXPublicKey P publicKey = Ok (x509.RSA rsaKey)
        /\ rsa_EncryptPKCS1v15 P rnd rsaKey shareSecret = (Err err, rnd')
        /\ e = "encryption share secret fail: " +:+ err)
  \/ (exists rsaKey cryptPK rnd1 err,
        x509_ParsePKIXPublicKey P publicKey = Ok (x509.RSA rsaKey)
        /\ rsa_EncryptPKCS1v15 P rnd rsaKey shareSecret = (Ok cryptPK, rnd1)
        /\ rsa_EncryptPKCS1v15 P rnd1 rsaKey verifyToken = (Err err, rnd')
        /\ e = "encryption verfy tokenfail: " +:+ err).
Proof.
  unfold genEncryptionKeyResponse, fmt.Errorf. split.
  - destruct (x509_ParsePKIXPublicKey P publicKey) as [k|err] eqn:Ek.
    + destruct k as [rsaKey| | |]; try discriminate.
      destruct (rsa_EncryptPKCS1v15 P rnd rsaKey shareSecret)
        as [[c|err] r1] eqn:E1.
      * destruct (rsa_EncryptPKCS1v15 P r1 rsaKey verifyToken)
          as [[c2|err] r2] eqn:E2; [discriminate|].
        intros H. injection H as <- <-. right. right.
        exists rsaKey, c, r1, err. auto.
      * intros H. injection H as <- <-. right. left.
        exists rsaKey, err. auto.
    + intros H. injection H as <- <-. left. exists err. auto.
  - intros [(err & -> & -> & ->)
           |[(rsaKey & err & -> & -> & ->)
            |(rsaKey & c & r1 & err & -> & -> & -> & ->)]]; reflexivity.
Qed.

(** ** The key of [newSymmetricEncryption] *)

Lemma drop_repeat {A} (x : A) (n m : nat) :
  drop n (repeat x m) = repeat x (m - n).
Proof.
  revert n. induction m as [|m IH]; intros [|n]; cbn; try reflexivity.
  apply IH.
Qed.

Lemma overwrite_short (n : nat) (got : list byte) :
  (length got <= n)%nat ->
  overwrite (repeat x00 n) got = got ++ repeat x00 (n - length got).
Proof.
  intros H. unfold overwrite. rewrite repeat_length, drop_repeat.
  apply take_ge. rewrite length_app, repeat_length. lia.
Qed.

(** X11. The key is what the random source delivered, followed by zero
    bytes up to 16: a full read gives the 16 random bytes, a short read
    (whose error is not looked at) leaves the tail of the key zero. *)
Theorem newSymmetricEncryption_short_read (P : Platform) (rnd rnd' : Rand P)
    (got : list byte) (err : option error) :
  rand_Read P rnd 16 = (got, err, rnd') ->
  (length got <= 16)%nat ->
  exists encoStream decoStream,
    newSymmetricEncryption P rnd
    = (Returned (got ++ repeat x00 (16 - length got), encoStream, decoStream),
       rnd')
    /\ (length got = 16%nat ->
        newSymmetricEncryption P rnd
        = (Returned (got, encoStream, decoStream), rnd')).
Proof.
  intros E Hl. pose proof (newSymmetricEncryption_returns P rnd) as H.
  cbv zeta in H. rewrite E in H. cbn [fst snd] in H.
  rewrite (overwrite_short 16 got Hl) in H.
  do 2 eexists. split; [exact H|].
  intros H16. rewrite H. rewrite H16. change (16 - 16)%nat with 0%nat.
  cbn [repeat]. now rewrite !app_nil_r.
Qed.

Lemma newSymmetricEncryption_short_read_witness :
  exists encoStream decoStream,
    newSymmetricEncryption (Fixture.platform Fixture.unreachable)
      [x0b; x30; x55]
    = (Returned ([x0b; x30; x55] ++ repeat x00 (16 - 3), encoStream,
                 decoStream), [])
    /\ (length [x0b; x30; x55] = 16%nat ->
        newSymmetricEncryption (Fixture.platform Fixture.unreachable)
          [x0b; x30; x55]
        = (Returned ([x0b; x30; x55], encoStream, decoStream), [])).
Proof.
  apply (newSymmetricEncryption_short_read
           (Fixture.platform Fixture.unreachable) [x0b; x30; x55] []
           [x0b; x30; x55] (Some "unexpected EOF"%string)).
  - reflexivity.
  - cbn. lia.
Defined.

(** ** What the plaintext packets carry *)

Lemma PackVarInt_cancel (a b : Z) (x y : list byte) :
  pk.PackVarInt a ++ x = pk.PackVarInt b ++ y -> int32 a = int32 b /\ x = y.
Proof.
  intros E. pose proof (isVarInt_PackVarInt a x) as Ha.
  rewrite E, (isVarInt_PackVarInt b y) in Ha. injection Ha. auto.
Qed.

Lemma of_string_inj (s t : string) :
  Bytes.of_string s = Bytes.of_string t -> s = t.
Proof. intros E. rewrite <- (of_to_string s), E. apply of_to_string. Qed.

Lemma PackString_cancel (s t : string) (x y : list byte) :
  length x = length y ->
  pk.PackString s ++ x = pk.PackString t ++ y -> s = t /\ x = y.
Proof.
  intros Hl E. unfold pk.PackString in E. cbv zeta in E.
  rewrite <- !app_assoc in E. apply PackVarInt_cancel in E as [_ E].
  apply app_inj_2 in E as [Es Ex]; [|exact Hl].
  split; [now apply of_string_inj | exact Ex].
Qed.

Lemma uint16_range (n : Z) : 0 <= uint16 n < 2 ^ 16.
Proof. unfold uint16. apply Z.mod_pos_bound. lia. Qed.

(** X12. A handshake packet determines its fields up to the integer
    conversions of the source: two calls build the same packet exactly when
    the addresses and the next states are equal, the protocol versions agree
    as 32-bit integers and the ports agree modulo 65536.  A port outside
    [0, 65535] is not refused, it wraps. *)
Theorem newHandshakePacket_determines_fields
    (protocolVersion protocolVersion' : Z) (addr addr' : string)
    (port port' : Z) (nextState nextState' : byte) :
  newHandshakePacket protocolVersion addr port nextState
  = newHandshakePacket protocolVersion' addr' port' nextState'
  <->
  int32 protocolVersion = int32 protocolVersion'
  /\ addr = addr'
  /\ port mod 65536 = port' mod 65536
  /\ nextState = nextState'.
Proof.
  change (port mod 65536) with (uint16 port).
  change (port' mod 65536) with (uint16 port').
  unfold newHandshakePacket. cbv zeta. split.
  - intros E. injection E as E. rewrite ?app_nil_l, <- ?app_assoc in E.
    apply PackVarInt_cancel in E as [Hv E].
    apply PackString_cancel in E as [Ha E]; [|reflexivity].
    apply app_inj_2 in E as [Ep En]; [|reflexivity].
    apply (f_equal Bytes.be_value) in Ep.
    rewrite !be_value_PackUint16 in Ep by apply uint16_range.
    injection En as En. rewrite !int32_idem in Hv. auto.
  - intros (-> & -> & -> & ->). reflexivity.
Qed.

(** X13. A login-start packet determines the user name: different names
    give different packets. *)
Theorem newLoginStartPacket_determines_name (userName userName' : string) :
  newLoginStartPacket userName = newLoginStartPacket userName'
  <-> userName = userName'.
Proof.
  unfold newLoginStartPacket. cbv zeta. split; [|now intros ->].
  intros E. injection E as E. rewrite ?app_nil_l in E.
  rewrite <- (app_nil_r (pk.PackString userName)) in E.
  rewrite <- (app_nil_r (pk.PackString userName')) in E.
  now apply PackString_cancel in E as [H _].
Qed.

Lemma length_PackVarInt_loop (fuel : nat) (num : Z) :
  (length (pk.PackVarInt_loop fuel num) <= fuel)%nat
  /\ (1 <= fuel -> 1 <= length (pk.PackVarInt_loop fuel num))%nat.
Proof.
  revert num. induction fuel as [|fuel IH]; intros num; [cbn; lia|].
  cbn [pk.PackVarInt_loop]. cbv zeta.
  destruct (Z.shiftr num 7 =? 0); cbn [length].
  - lia.
  - destruct (IH (Z.shiftr num 7)). lia.
Qed.

Lemma length_PackVarInt (n : Z) : 1 <= len (pk.PackVarInt n) <= 5.
Proof.
  unfold len, pk.PackVarInt.
  destruct (length_PackVarInt_loop 5 (uint32 n)). lia.
Qed.

(** X14. The payload of a handshake packet is the address bytes and between
    5 and 13 further bytes; the payload of a login-start packet is the name
    bytes and between 1 and 5 further bytes. *)
Theorem plaintext_packets_size
    (protocolVersion : Z) (addr : string) (port : Z) (nextState : byte)
    (userName : string) :
  (let n := len (pk.Data (newHandshakePacket protocolVersion addr port
                            nextState)) in
   len (Bytes.of_string addr) + 5 <= n <= len (Bytes.of_string addr) + 13)
  /\ (let n := len (pk.Data (newLoginStartPacket userName)) in
      len (Bytes.of_string userName) + 1 <= n
      <= len (Bytes.of_string userName) + 5).
Proof.
  unfold newHandshakePacket, newLoginStartPacket, pk.PackString. cbv zeta.
  cbn [pk.Data]. rewrite ?app_nil_l.
  pose proof (length_PackVarInt (int32 protocolVersion)) as H1.
  pose proof (length_PackVarInt (int32 (len (Bytes.of_string addr)))) as H2.
  pose proof (length_PackVarInt (int32 (len (Bytes.of_string userName)))) as H3.
  unfold len in *. rewrite !length_app. cbn [length pk.PackUint16].
  lia.
Qed.

(** ** What [loginAuth] lets out *)

(** X15. The server id, the shared secret and the public key reach the
    session service through the digest only, and the verify token not at
    all: two calls whose digests agree send the same request and return the
    same result. *)
Theorem loginAuth_through_digest (P : Platform) (AsTk name UUID : string)
    (shareSecret shareSecret' : list byte) (er er' : encryptionRequest) :
  authDigest (ServerID er) shareSecret (PublicKey er)
  = authDigest (ServerID er') shareSecret' (PublicKey er') ->
  loginAuth P AsTk name UUID shareSecret er
  = loginAuth P AsTk name UUID shareSecret' er'.
Proof.
  intros H. rewrite !loginAuth_unfold. cbv zeta. now rewrite H.
Qed.

Lemma loginAuth_through_digest_witness :
  loginAuth (Fixture.platform Fixture.unreachable) "token" "Notch" "uuid"
    [x63; x64]
    {| ServerID := "ab"; PublicKey := [x65]; VerifyToken := [x01] |}
  = loginAuth (Fixture.platform Fixture.unreachable) "token" "Notch" "uuid"
      [x62; x63]
      {| ServerID := "a"; PublicKey := [x64; x65];
         VerifyToken := [x02; x03] |}.
Proof.
  apply (loginAuth_through_digest (Fixture.platform Fixture.unreachable)
           "token" "Notch" "uuid" [x63; x64] [x62; x63]
           {| ServerID := "ab"; PublicKey := [x65]; VerifyToken := [x01] |}
           {| ServerID := "a"; PublicKey := [x64; x65];
              VerifyToken := [x02; x03] |}).
  vm_compute. reflexivity.
Defined.
